(** * JointVelocityController of youbot_description

    A shallow embedding of
    [src/youbot_common/youbot_description/src/arm_joint_velocity_control.cpp]:
    the controller's [init], [starting], [update] and [velocityCommand]
    methods, written over an explicit machine state, together with the
    properties of the controller that the specification states.

    Conventions of the embedding.
    - A C++ [double] is a binary64 float ([PrimFloat.float]); [+] and [-]
      are [PrimFloat.add] and [PrimFloat.sub].
    - A [std::vector] is a list.  [v[i]] on a vector of size [n <= i] is
      undefined behaviour in C++; the embedding stops there with the
      outcome [Undefined], which records the vector, the index and the
      state in which the access was attempted.
    - A [JointState*] is the position of the joint state inside the
      robot's vector of joint states, so two equal pointers alias the same
      joint state.
    - [ROS_ERROR] appends an event to the [rosout] log of the state;
      [ROS_DEBUG] output is not modelled.
    - The value read from a local that nothing has initialised is a
      parameter of the embedding, about which nothing is assumed.
    - The state holds the one robot the controller works on: the framework
      passes it to [init], which stores the pointer before anything else,
      and calls [starting], [update] and the command callback only after
      [init] has returned true, so [robotPtr] is never NULL where it is
      dereferenced. *)

From Stdlib Require Import ZArith PrimFloat.
From stdpp Require Import base list strings.

Local Open Scope Z_scope.
Local Open Scope nat_scope.

(** ** Time *)

(** [ros::Time] and [ros::Duration] are values of roscpp.  A time is
    represented by its nanosecond count and a duration by a signed
    nanosecond count; subtraction of two times is the difference. *)
Abbreviation ros_Time := Z (only parsing).
Abbreviation ros_Duration := Z (only parsing).

Definition ros_Time_sub (a b : ros_Time) : ros_Duration := (a - b)%Z.

(** ** Robot model (pr2_mechanism_model) *)

Record Joint := mkJoint { name : string }.

Record JointState := mkJointState {
  joint_ : Joint;
  velocity_ : float;
  commanded_effort_ : float;
  calibrated_ : bool
}.

Abbreviation JointStatePtr := nat (only parsing).

Record RobotState := mkRobotState {
  current_time_ : ros_Time;
  joint_states_ : list JointState
}.

Definition getTime (r : RobotState) : ros_Time := current_time_ r.

(** [RobotState::getJointState(name)]: a pointer to the state of the joint
    called [name], or NULL ([None]) when the model has no such joint. *)
Fixpoint find_joint (nm : string) (i : nat) (js : list JointState)
  : option JointStatePtr :=
  match js with
  | [] => None
  | j :: rest =>
      if String.eqb (name (joint_ j)) nm then Some i
      else find_joint nm (S i) rest
  end.

Definition getJointState (r : RobotState) (nm : string) : option JointStatePtr :=
  find_joint nm 0 (joint_states_ r).

(** ** PID controller (control_toolbox) *)

(** Modelled from the spec: the PidController of the data model, with its
    proportional, integral and derivative gains, its integral windup
    bounds and its internal error state; control_toolbox::Pid itself is
    not part of the sources. *)
Record Pid := mkPid {
  p_gain_ : float;
  i_gain_ : float;
  d_gain_ : float;
  i_max_ : float;
  i_min_ : float;
  p_error_last_ : float;
  p_error_ : float;
  d_error_ : float;
  i_error_ : float;
  cmd_ : float
}.

(** The default-constructed controller that [pids.resize] creates. *)
Definition Pid_default : Pid :=
  mkPid 0 0 0 0 (PrimFloat.opp 0) 0 0 0 0 0.

(** Modelled from the spec: resetting a PidController zeroes its internal
    state and keeps its gains and bounds. *)
Definition Pid_reset (p : Pid) : Pid :=
  mkPid (p_gain_ p) (i_gain_ p) (d_gain_ p) (i_max_ p) (i_min_ p) 0 0 0 0 0.

(** The internal state of a PidController is zero. *)
Definition Pid_zeroed (p : Pid) : Prop :=
  p_error_last_ p = 0%float ∧ p_error_ p = 0%float ∧
  d_error_ p = 0%float ∧ i_error_ p = 0%float ∧ cmd_ p = 0%float.

(** ** Parameters and messages *)

#[local] Unset Elimination Schemes.
Inductive XmlRpcValue :=
  | TypeInvalid
  | TypeBoolean (b : bool)
  | TypeInt (z : Z)
  | TypeDouble (d : float)
  | TypeString (s : string)
  | TypeDateTime
  | TypeBase64
  | TypeArray (l : list XmlRpcValue)
  | TypeStruct (l : list (string * XmlRpcValue)).
#[local] Set Elimination Schemes.

(** What the controller uses of a [ros::NodeHandle]: its namespace and the
    parameters visible under it. *)
Record NodeHandle := mkNodeHandle {
  getNamespace : string;
  getParam : string → option XmlRpcValue
}.

(** [getParam(key, std::string&)] succeeds on a string parameter only. *)
Definition getParam_string (nh : NodeHandle) (key : string) : option string :=
  match getParam nh key with
  | Some (TypeString s) => Some s
  | _ => None
  end.

(** [brics_actuator::JointValue] (its time stamp is never read). *)
Record JointValue := mkJointValue {
  joint_uri : string;
  unit : string;
  value : float
}.

(** [to_string(si::radian_per_second)] of Boost.Units: the symbol of the
    unit, written in the order of the SI base dimensions. *)
Definition radian_per_second : string := "s^-1 rad".

(** ** Log *)

Inductive RosLog :=
  | NoJointsGiven (ns : string)
  | MalformedJointSpecification (ns : string)
  | JointNamesNotStrings (ns : string)
  | JointNotFound (joint ns : string)
  | JointNotCalibrated (joint ns : string)
  | CannotSetupPid (joint ns : string)
  | UnableToLocateJoint (joint : string)
  | IncompatibleUnits (uri unit : string).

(** ** Machine state *)

Record State := mkState {
  robot : RobotState;
  joints : list JointStatePtr;
  pids : list Pid;
  targetVelocities : list float;
  lastTime : ros_Time;
  subscriber : option string;
  rosout : list RosLog
}.

Definition set_robot (r : RobotState) (s : State) : State :=
  mkState r (joints s) (pids s) (targetVelocities s) (lastTime s)
          (subscriber s) (rosout s).
Definition set_joints (js : list JointStatePtr) (s : State) : State :=
  mkState (robot s) js (pids s) (targetVelocities s) (lastTime s)
          (subscriber s) (rosout s).
Definition set_pids (ps : list Pid) (s : State) : State :=
  mkState (robot s) (joints s) ps (targetVelocities s) (lastTime s)
          (subscriber s) (rosout s).
Definition set_targetVelocities (tv : list float) (s : State) : State :=
  mkState (robot s) (joints s) (pids s) tv (lastTime s)
          (subscriber s) (rosout s).
Definition set_lastTime (t : ros_Time) (s : State) : State :=
  mkState (robot s) (joints s) (pids s) (targetVelocities s) t
          (subscriber s) (rosout s).
Definition set_subscriber (t : option string) (s : State) : State :=
  mkState (robot s) (joints s) (pids s) (targetVelocities s) (lastTime s)
          t (rosout s).
Definition set_rosout (l : list RosLog) (s : State) : State :=
  mkState (robot s) (joints s) (pids s) (targetVelocities s) (lastTime s)
          (subscriber s) l.

(** The members right after [JointVelocityController()], next to a robot. *)
Definition constructed (r : RobotState) : State :=
  mkState r [] [] [] 0%Z None [].

(** ** Computations *)

(** The vectors of the program: [joint_states_] of the robot (indexed by a
    joint state pointer), the members [joints], [pids] and
    [targetVelocities], the parameter [jointNames] of [init], and the
    locals [lookup] and [velocities] of [velocityCommand]. *)
Inductive Vec :=
  | vJointStates | vJoints | vPids | vTargets | vJointNames | vLookup
  | vVelocities.

Inductive outcome (A : Type) :=
  | Done (a : A) (s : State)
  | Undefined (v : Vec) (i : nat) (s : State).
Arguments Done {A} a s.
Arguments Undefined {A} v i s.

Definition M (A : Type) : Type := State → outcome A.

Definition ret {A} (a : A) : M A := λ s, Done a s.

Definition bind {A B} (f : A → M B) (m : M A) : M B :=
  λ s, match m s with
       | Done a s' => f a s'
       | Undefined v i s' => Undefined v i s'
       end.

#[export] Instance M_ret : MRet M := @ret.
#[export] Instance M_bind : MBind M := @bind.

Definition gets {A} (f : State → A) : M A := λ s, Done (f s) s.
Definition modify (f : State → State) : M () := λ s, Done () (f s).

Definition ROS_ERROR (e : RosLog) : M () :=
  modify (λ s, set_rosout (rosout s ++ [e]) s).

Definition when (b : bool) (m : M ()) : M () :=
  if b then m else mret ().

(** [v[i]] as an rvalue. *)
Definition vec_at {A} (v : Vec) (l : list A) (i : nat) : M A :=
  λ s, match l !! i with
       | Some x => Done x s
       | None => Undefined v i s
       end.

(** [*p] for a joint state pointer. *)
Definition deref (p : JointStatePtr) : M JointState :=
  λ s, vec_at vJointStates (joint_states_ (robot s)) p s.

(** [for (unsigned int i = 0; i < n; ++i) body], given the indices. *)
Fixpoint for_each (idx : list nat) (body : nat → M ()) : M () :=
  match idx with
  | [] => mret ()
  | i :: rest => body i ;; for_each rest body
  end.

(** A loop whose body may [return] a value from the enclosing function. *)
Fixpoint for_until {R} (idx : list nat) (body : nat → M (option R))
  : M (option R) :=
  match idx with
  | [] => mret None
  | i :: rest =>
      r ← body i;
      match r with
      | Some x => mret (Some x)
      | None => for_until rest body
      end
  end.

(** A loop that updates a local variable of the enclosing function. *)
Fixpoint for_fold {A} (idx : list nat) (body : nat → A → M A) (a : A) : M A :=
  match idx with
  | [] => mret a
  | i :: rest => a' ← body i a; for_fold rest body a'
  end.

(** [v.resize(n)] with value-initialised new elements [d]. *)
Definition resize {A} (n : nat) (d : A) (v : list A) : list A :=
  take n v ++ replicate (n - length v) d.


(** [r = loop; if the loop returned, return that, else go on with k]. *)
Definition or_else {R} (loop : M (option R)) (k : M R) : M R :=
  r ← loop;
  match r with
  | Some x => mret x
  | None => k
  end.

Definition joints_at (i : nat) : M JointStatePtr :=
  λ s, vec_at vJoints (joints s) i s.
Definition pids_at (i : nat) : M Pid :=
  λ s, vec_at vPids (pids s) i s.
Definition targetVelocities_at (i : nat) : M float :=
  λ s, vec_at vTargets (targetVelocities s) i s.

(** [pids[i] = p], [targetVelocities[j] = x], [joints.push_back(p)] and
    [joints[i]->commanded_effort_ = x]. *)
Definition pids_store (i : nat) (p : Pid) : M () :=
  λ s, if decide (i < length (pids s))
       then Done () (set_pids (<[i:=p]> (pids s)) s)
       else Undefined vPids i s.

Definition targetVelocities_store (j : nat) (x : float) : M () :=
  λ s, if decide (j < length (targetVelocities s))
       then Done () (set_targetVelocities (<[j:=x]> (targetVelocities s)) s)
       else Undefined vTargets j s.

Definition joints_push_back (p : JointStatePtr) : M () :=
  modify (λ s, set_joints (joints s ++ [p]) s).

Definition set_commanded_effort (x : float) (j : JointState) : JointState :=
  mkJointState (joint_ j) (velocity_ j) x (calibrated_ j).

Definition commanded_effort_store (p : JointStatePtr) (x : float) : M () :=
  λ s, match joint_states_ (robot s) !! p with
       | Some j =>
           Done () (set_robot
                      (mkRobotState (current_time_ (robot s))
                         (<[p:=set_commanded_effort x j]>
                            (joint_states_ (robot s)))) s)
       | None => Undefined vJointStates p s
       end.

(** ** The controller *)

Section JointVelocityController.

(** The two operations of control_toolbox::Pid that are opaque to the
    controller.  [updatePid p error dt] is the effort computed by the
    controller [p] and the controller after the call;
    [Pid_init ns p] is [p.init(ros::NodeHandle(ns))]: the controller
    with the gains found under [ns], or [None] when [init] returns
    false. *)
Variable updatePid : Pid → float → ros_Duration → float * Pid.
Variable Pid_init : string → Pid → option Pid.

(** The third loop of [init] declares [double p, i, d, i_max, i_min] in
    its body and then calls [pids[i].getGains(p, i, d, i_max, i_min)]:
    from the declaration on, [i] is this local, which nothing has
    initialised, and no longer the loop index.  [indeterminate_i k] is the
    index that the local converts to when [pids[i]] is evaluated in the
    iteration for joint position [k]; nothing is assumed about it. *)
Variable indeterminate_i : nat → nat.

(** The namespace the gains are read from. *)
Definition gains_namespace (nodeHandle : NodeHandle) : string :=
  match getParam_string nodeHandle "gains" with
  | Some gainsNS => gainsNS
  | None => getNamespace nodeHandle +:+ "/gains"
  end.

(** The bodies of the three loops of [init]. *)
Definition resolve (ns : string) (jointNames : list XmlRpcValue) (i : nat)
  : M (option bool) :=
  nm ← vec_at vJointNames jointNames i;
  match nm with
  | TypeString nm =>
      r ← gets robot;
      match getJointState r nm with
      | None => ROS_ERROR (JointNotFound nm ns);; mret (Some false)
      | Some jointStatePtr => joints_push_back jointStatePtr;; mret None
      end
  | _ => ROS_ERROR (JointNamesNotStrings ns);; mret (Some false)
  end.

Definition check_calibrated (ns : string) (i : nat) : M (option bool) :=
  p ← joints_at i;
  j ← deref p;
  if calibrated_ j then mret None
  else ROS_ERROR (JointNotCalibrated (name (joint_ j)) ns);;
       mret (Some false).

(** After a successful [Pid::init] the body reads the gains back with
    [pids[i].getGains], where [i] is the uninitialised local: an access
    to [pids] at [indeterminate_i i], undefined when that index is past
    the end.  The call writes to the locals only.  The [ROS_DEBUG] line
    that follows evaluates its arguments only when debug output is on,
    and is not modelled. *)
Definition setup_pid (ns gainsNS : string) (i : nat) : M (option bool) :=
  p ← joints_at i;
  j ← deref p;
  pid ← pids_at i;
  match Pid_init (gainsNS +:+ "/" +:+ name (joint_ j)) pid with
  | None =>
      ROS_ERROR (CannotSetupPid (name (joint_ j)) ns);;
      mret (Some false)
  | Some pid' =>
      pids_store i pid';;
      _ ← pids_at (indeterminate_i i);
      mret None
  end.

Definition init (nodeHandle : NodeHandle) : M bool :=
  let ns := getNamespace nodeHandle in
  match getParam nodeHandle "joints" with
  | None => ROS_ERROR (NoJointsGiven ns);; mret false
  | Some (TypeArray jointNames) =>
      or_else
        (for_until (seq 0 (length jointNames)) (resolve ns jointNames)) (
      n ← gets (λ s, length (joints s));
      or_else (for_until (seq 0 n) (check_calibrated ns)) (
      modify (λ s, set_targetVelocities
                     (resize (length (joints s)) 0%float (targetVelocities s)) s);;
      modify (λ s, set_pids (resize (length (joints s)) Pid_default (pids s)) s);;
      or_else
        (for_until (seq 0 n) (setup_pid ns (gains_namespace nodeHandle))) (
      modify (set_subscriber (Some "command"));;
      mret true)))
  | Some _ => ROS_ERROR (MalformedJointSpecification ns);; mret false
  end.

Definition reset_pid (i : nat) : M () :=
  pid ← pids_at i;
  pids_store i (Pid_reset pid).

Definition starting : M () :=
  n ← gets (λ s, length (pids s));
  for_each (seq 0 n) reset_pid;;
  t ← gets (λ s, getTime (robot s));
  modify (set_lastTime t).

(** The body of the loop of [update]. *)
Definition control (dt : ros_Duration) (i : nat) : M () :=
  p ← joints_at i;
  j ← deref p;
  target ← targetVelocities_at i;
  let error := PrimFloat.sub (velocity_ j) target in
  pid ← pids_at i;
  let '(effort, pid') := updatePid pid error dt in
  pids_store i pid';;
  commanded_effort_store p (PrimFloat.add (commanded_effort_ j) effort).

Definition update : M () :=
  currentTime ← gets (λ s, getTime (robot s));
  last ← gets lastTime;
  let dt := ros_Time_sub currentTime last in
  modify (set_lastTime currentTime);;
  n ← gets (λ s, length (joints s));
  for_each (seq 0 n) (control dt).

(** The inner loop of [velocityCommand]: the index of the first entry
    from position [k] on whose [joint_uri] is [nm], as the [int] stored
    in [lookup], which stays [-1] when there is none.  The conversion of
    the [unsigned int k] to [int] is exact: a serialised message is shorter
    than 2^32 bytes and an entry takes 24 bytes or more, so there are
    fewer than 2^31 entries. *)
Fixpoint locate (nm : string) (k : nat) (velocities : list JointValue) : Z :=
  match velocities with
  | [] => (-1)%Z
  | v :: rest =>
      if String.eqb (joint_uri v) nm then Z.of_nat k
      else locate nm (S k) rest
  end.

(** The bodies of the two loops over the joints of [velocityCommand]. *)
Definition correlate (velocities : list JointValue) (j : nat)
    (lookup : list Z) : M (list Z) :=
  p ← joints_at j;
  jt ← deref p;
  let lookup := <[j:=locate (name (joint_ jt)) 0 velocities]> lookup in
  l ← vec_at vLookup lookup j;
  when (bool_decide (l = (-1)%Z))
       (ROS_ERROR (UnableToLocateJoint (name (joint_ jt))));;
  mret lookup.

Definition command (velocities : list JointValue) (lookup : list Z)
    (j : nat) : M () :=
  l ← vec_at vLookup lookup j;
  when (negb (bool_decide (l = (-1)%Z))) (
    v ← vec_at vVelocities velocities (Z.to_nat l);
    when (negb (String.eqb (unit v) radian_per_second))
         (ROS_ERROR (IncompatibleUnits (joint_uri v) (unit v)));;
    empty ← gets (λ s, bool_decide (targetVelocities s = []));
    when (negb empty) (targetVelocities_store j (value v))).

Definition velocityCommand (velocities : list JointValue) : M () :=
  match velocities with
  | [] => starting
  | _ =>
      n ← gets (λ s, length (joints s));
      lookup ← for_fold (seq 0 n) (correlate velocities) (replicate n (-1)%Z);
      modify (λ s, set_targetVelocities
                     (resize (length velocities) 0%float (targetVelocities s)) s);;
      for_each (seq 0 n) (command velocities lookup)
  end.

End JointVelocityController.

(** ** Notions used by the statements *)

(** The state in which a computation ended, or stopped at an undefined
    access. *)
Definition final {A} (o : outcome A) : State :=
  match o with
  | Done _ s => s
  | Undefined _ _ s => s
  end.

(** A computation leaves the component [f] of the state as it was, all
    the way to its end or to the undefined access that stops it. *)
Definition preserves {A X} (f : State → X) (m : M A) : Prop :=
  ∀ s, f (final (m s)) = f s.

(** Every bound joint points into the robot's joint states. *)
Definition bindings_valid (s : State) : Prop :=
  Forall (λ p, p < length (joint_states_ (robot s))) (joints s).

(** The vectors indexed by joint position are as long as [joints]
    requires: what [init] establishes before the first tick. *)
Definition tick_ready (s : State) : Prop :=
  bindings_valid s ∧
  length (joints s) ≤ length (targetVelocities s) ∧
  length (joints s) ≤ length (pids s).

(** Some entry of a command names the joint [nm]. *)
Definition commanded (nm : string) (velocities : list JointValue) : Prop :=
  ∃ v, v ∈ velocities ∧ joint_uri v = nm.

(** The entry at position [k] is the first one that names [nm]. *)
Definition first_match (nm : string) (velocities : list JointValue)
    (k : nat) (v : JointValue) : Prop :=
  velocities !! k = Some v ∧ joint_uri v = nm ∧
  ∀ k' v', k' < k → velocities !! k' = Some v' → joint_uri v' ≠ nm.

(** What [lookup] holds for a joint state pointer once the first loop of
    [velocityCommand] has handled it, and what that loop logs for it. *)
Definition located_at (s : State) (velocities : list JointValue)
    (p : JointStatePtr) : Z :=
  from_option (λ jt, locate (name (joint_ jt)) 0 velocities) (-1)%Z
              (joint_states_ (robot s) !! p).

Definition unlocated_at (s : State) (velocities : list JointValue)
    (p : JointStatePtr) : option RosLog :=
  jt ← joint_states_ (robot s) !! p;
  if bool_decide (locate (name (joint_ jt)) 0 velocities = (-1)%Z)
  then Some (UnableToLocateJoint (name (joint_ jt))) else None.

(** The state after the first loop and the resize of [velocityCommand]. *)
Definition correlated (s : State) (velocities : list JointValue) : State :=
  set_targetVelocities
    (resize (length velocities) 0%float (targetVelocities s))
    (set_rosout (rosout s ++ omap (unlocated_at s velocities) (joints s)) s).

(** Every entry of a [lookup] vector is [-1] or a position of the
    command. *)
Definition lookup_ok (velocities : list JointValue) (lookup : list Z) : Prop :=
  ∀ j l, lookup !! j = Some l →
         l = (-1)%Z ∨ ∃ v, velocities !! Z.to_nat l = Some v.

(** What [command] does to a state for a correlated entry [v]. *)
Definition flag_unit (v : JointValue) (s : State) : State :=
  if String.eqb (unit v) radian_per_second then s
  else set_rosout (rosout s ++ [IncompatibleUnits (joint_uri v) (unit v)]) s.

Section TickNotions.
Variable updatePid : Pid → float → ros_Duration → float * Pid.

(** What the PID of joint position [i] answers in a tick of length [dt]
    that starts in state [s]: the error is the joint's velocity minus
    its target. *)
Definition pid_answer (s : State) (dt : ros_Duration) (i : nat)
  : option (float * Pid) :=
  p ← joints s !! i;
  j ← joint_states_ (robot s) !! p;
  target ← targetVelocities s !! i;
  pid ← pids s !! i;
  Some (updatePid pid (PrimFloat.sub (velocity_ j) target) dt).

(** The efforts that the joint positions [idx] bound to the joint state
    [p] contribute, in order. *)
Definition efforts_for (s : State) (dt : ros_Duration) (p : JointStatePtr)
    (idx : list nat) : list float :=
  omap (λ i, if decide (joints s !! i = Some p)
             then fst <$> pid_answer s dt i else None) idx.

(** The joint state [j0] after the efforts [es] have been added to its
    commanded effort one after the other. *)
Definition with_efforts (es : list float) (j0 : JointState) : JointState :=
  set_commanded_effort (fold_left PrimFloat.add es (commanded_effort_ j0)) j0.

(** The loop of a tick that started in [s0] has handled the joint
    positions below [i] and is in state [s]. *)
Record tick_inv (s0 : State) (dt : ros_Duration) (i : nat) (s : State)
  : Prop := mk_tick_inv {
  inv_joints : joints s = joints s0;
  inv_targets : targetVelocities s = targetVelocities s0;
  inv_lastTime : lastTime s = lastTime s0;
  inv_subscriber : subscriber s = subscriber s0;
  inv_rosout : rosout s = rosout s0;
  inv_time : current_time_ (robot s) = current_time_ (robot s0);
  inv_pids_length : length (pids s) = length (pids s0);
  inv_pids_todo : ∀ k, i ≤ k → pids s !! k = pids s0 !! k;
  inv_pids_done : ∀ k, k < i → pids s !! k = snd <$> pid_answer s0 dt k;
  inv_joint_states : ∀ p,
    joint_states_ (robot s) !! p =
    with_efforts (efforts_for s0 dt p (seq 0 i)) <$> joint_states_ (robot s0) !! p
}.
End TickNotions.

(** What can happen to a controller once [init] has succeeded: the
    framework starts it, ticks it, delivers a command, or the hardware
    side of the framework rewrites the robot state between two calls. *)
Inductive Event :=
  | Start
  | Tick
  | Command (velocities : list JointValue)
  | Hardware (r : RobotState).

Section Runs.
Variable updatePid : Pid → float → ros_Duration → float * Pid.

Definition handle (e : Event) : M () :=
  match e with
  | Start => starting
  | Tick => update updatePid
  | Command velocities => velocityCommand velocities
  | Hardware r => modify (set_robot r)
  end.

(** [reaches s s']: the events of some history lead from [s] to [s']
    without an undefined access. *)
Inductive reaches (s : State) : State → Prop :=
  | reaches_here : reaches s s
  | reaches_step e s1 s2 :
      reaches s s1 → handle e s1 = Done () s2 → reaches s s2.
End Runs.

(** ** Histories *)

Section Histories.
Variable updatePid : Pid → float → ros_Duration → float * Pid.

(** The events of a history, handled one after the other. *)
Fixpoint run (history : list Event) : M () :=
  match history with
  | [] => mret ()
  | e :: rest => handle updatePid e ;; run rest
  end.
End Histories.

(** An event fits a controller with [n] bound joints on a robot with [m]
    joint states: a command is empty or has an entry for every joint
    position, and the hardware side keeps the [m] joint states. *)
Definition fits (n m : nat) (e : Event) : Prop :=
  match e with
  | Command velocities => velocities = [] ∨ n ≤ length velocities
  | Hardware r => length (joint_states_ r) = m
  | Start | Tick => True
  end.

(** Words for the joint state behind a pointer. *)
Definition calibrated_at (r : RobotState) (p : JointStatePtr) : Prop :=
  ∃ j, joint_states_ r !! p = Some j ∧ calibrated_ j = true.

Definition bound_to (r : RobotState) (p : JointStatePtr) (nm : string) : Prop :=
  getJointState r nm = Some p ∧
  ∃ j, joint_states_ r !! p = Some j ∧ name (joint_ j) = nm.

(** [pid] is the default-constructed controller after [Pid::init] under
    the gains namespace of the joint behind [p]. *)
Definition loaded_from (Pid_init : string → Pid → option Pid)
    (gainsNS : string) (r : RobotState) (p : JointStatePtr) (pid : Pid) : Prop :=
  ∃ j, joint_states_ r !! p = Some j ∧
       Pid_init (gainsNS +:+ "/" +:+ name (joint_ j)) Pid_default = Some pid.

(** An XML-RPC value that is not a string. *)
Definition not_string (x : XmlRpcValue) : Prop :=
  match x with
  | TypeString _ => False
  | _ => True
  end.

(** ** A two-joint arm to run the controller on *)

Module Sample.

(** A proportional law: the effort opposes the error, whatever [dt]. *)
Definition P_law (p : Pid) (error : float) (dt : ros_Duration) : float * Pid :=
  let cmd := PrimFloat.opp (PrimFloat.mul (p_gain_ p) error) in
  (cmd, mkPid (p_gain_ p) (i_gain_ p) (d_gain_ p) (i_max_ p) (i_min_ p)
              error error (d_error_ p) (i_error_ p) cmd).

(** Gains exist under [/arm/gains] only. *)
Definition gains (ns : string) (p : Pid) : option Pid :=
  if String.prefix "/arm/gains/" ns
  then Some (mkPid 2 0 0 0 0 0 0 0 0 0) else None.

Definition arm : RobotState :=
  mkRobotState 1000%Z [mkJointState (mkJoint "J1") 0.25 0 true;
                       mkJointState (mkJoint "J2") 0.5 10 true].

Definition node (jointNames : XmlRpcValue) : NodeHandle :=
  mkNodeHandle "/arm"
    (λ k, if String.eqb k "joints" then Some jointNames else None).

Definition J1_J2 : XmlRpcValue := TypeArray [TypeString "J1"; TypeString "J2"].

Definition gain2 : Pid := mkPid 2 0 0 0 0 0 0 0 0 0.

(** The controller bound to [J1; J2], with the given targets. *)
Definition bound (targets : list float) : State :=
  mkState arm [0; 1] [gain2; gain2] targets 0%Z (Some "command") [].

(** The arm with [J2] not calibrated, the arm one second later, and
    gains that exist for [J1] only. *)
Definition arm_J2_uncalibrated : RobotState :=
  mkRobotState 1000%Z [mkJointState (mkJoint "J1") 0.25 0 true;
                       mkJointState (mkJoint "J2") 0.5 10 false].

Definition arm_later : RobotState :=
  mkRobotState 1000001000%Z [mkJointState (mkJoint "J1") 0.5 0 true;
                             mkJointState (mkJoint "J2") 0.75 10 true].

(** Values of the uninitialised local of [init]: one that always points
    into [pids], and one that points past the end of the two PIDs. *)
Definition in_range (i : nat) : nat := 0.
Definition past_end (i : nat) : nat := 2 + i.


End Sample.

(** ** Running computations *)

Lemma run_bind {A B} (m : M A) (f : A → M B) s :
  (m ≫= f) s =
  match m s with
  | Done a s' => f a s'
  | Undefined v i s' => Undefined v i s'
  end.
Proof. reflexivity. Qed.

Lemma run_bind_Done {A B} (m : M A) (f : A → M B) s a s' :
  m s = Done a s' → (m ≫= f) s = f a s'.
Proof. intros H. rewrite run_bind, H. reflexivity. Qed.

Lemma run_bind_Undefined {A B} (m : M A) (f : A → M B) s v i s' :
  m s = Undefined v i s' → (m ≫= f) s = Undefined v i s'.
Proof. intros H. rewrite run_bind, H. reflexivity. Qed.

Lemma run_vec_at {A} v (l : list A) i x s :
  l !! i = Some x → vec_at v l i s = Done x s.
Proof. intros H. unfold vec_at. rewrite H. reflexivity. Qed.

Lemma run_vec_at_None {A} v (l : list A) i s :
  l !! i = None → vec_at v l i s = Undefined v i s.
Proof. intros H. unfold vec_at. rewrite H. reflexivity. Qed.

Lemma for_each_app idx1 idx2 body s :
  for_each (idx1 ++ idx2) body s =
  (for_each idx1 body ;; for_each idx2 body) s.
Proof.
  revert s. induction idx1 as [|i idx1 IH]; intros s; simpl.
  - reflexivity.
  - rewrite !run_bind. destruct (body i s) as [[] s'|v k s']; [|reflexivity].
    rewrite IH. reflexivity.
Qed.

(** ** Frame reasoning *)

Lemma preserves_ret {A X} (f : State → X) (a : A) : preserves f (mret a).
Proof. intros s. reflexivity. Qed.

Lemma preserves_bind {A B X} (f : State → X) (m : M A) (k : A → M B) :
  preserves f m → (∀ a, preserves f (k a)) → preserves f (m ≫= k).
Proof.
  intros Hm Hk s. rewrite run_bind. specialize (Hm s).
  destruct (m s) as [a s'|v i s']; simpl in *.
  - rewrite Hk. exact Hm.
  - exact Hm.
Qed.

Lemma preserves_gets {A X} (f : State → X) (g : State → A) : preserves f (gets g).
Proof. intros s. reflexivity. Qed.

Lemma preserves_modify {X} (f : State → X) (g : State → State) :
  (∀ s, f (g s) = f s) → preserves f (modify g).
Proof. intros H s. apply H. Qed.

Lemma preserves_vec_at {A X} (f : State → X) v (l : list A) i :
  preserves f (vec_at v l i).
Proof. intros s. unfold vec_at. destruct (l !! i); reflexivity. Qed.

Lemma preserves_when {X} (f : State → X) b m :
  preserves f m → preserves f (when b m).
Proof. intros H. destruct b; [exact H | apply preserves_ret]. Qed.

Lemma preserves_for_each {X} (f : State → X) idx body :
  (∀ i, preserves f (body i)) → preserves f (for_each idx body).
Proof.
  intros H. induction idx as [|i idx IH]; simpl.
  - apply preserves_ret.
  - apply preserves_bind; [apply H | intros _; exact IH].
Qed.

Lemma preserves_for_fold {A X} (f : State → X) idx (body : nat → A → M A) a :
  (∀ i a, preserves f (body i a)) → preserves f (for_fold idx body a).
Proof.
  intros H. revert a. induction idx as [|i idx IH]; intros a; simpl.
  - apply preserves_ret.
  - apply preserves_bind; [apply H | intros a'; apply IH].
Qed.

Lemma preserves_for_until {R X} (f : State → X) idx (body : nat → M (option R)) :
  (∀ i, preserves f (body i)) → preserves f (for_until idx body).
Proof.
  intros H. induction idx as [|i idx IH]; simpl.
  - apply preserves_ret.
  - apply preserves_bind; [apply H |].
    intros [x|]; [apply preserves_ret | exact IH].
Qed.

Lemma preserves_joints_at {X} (f : State → X) i : preserves f (joints_at i).
Proof. intros s. apply preserves_vec_at. Qed.

Lemma preserves_pids_at {X} (f : State → X) i : preserves f (pids_at i).
Proof. intros s. apply preserves_vec_at. Qed.

Lemma preserves_targetVelocities_at {X} (f : State → X) i :
  preserves f (targetVelocities_at i).
Proof. intros s. apply preserves_vec_at. Qed.

Lemma preserves_deref {X} (f : State → X) p : preserves f (deref p).
Proof. intros s. apply preserves_vec_at. Qed.

Lemma preserves_ROS_ERROR {X} (f : State → X) e :
  (∀ l s, f (set_rosout l s) = f s) → preserves f (ROS_ERROR e).
Proof. intros H. apply preserves_modify. intros s. apply H. Qed.

Lemma preserves_targetVelocities_store {X} (f : State → X) j x :
  (∀ l s, f (set_targetVelocities l s) = f s) →
  preserves f (targetVelocities_store j x).
Proof.
  intros H s. unfold targetVelocities_store.
  destruct (decide _); simpl; [apply H | reflexivity].
Qed.

Lemma preserves_pids_store {X} (f : State → X) i p :
  (∀ l s, f (set_pids l s) = f s) → preserves f (pids_store i p).
Proof.
  intros H s. unfold pids_store.
  destruct (decide _); simpl; [apply H | reflexivity].
Qed.

Lemma preserves_commanded_effort_store {X} (f : State → X) p x :
  (∀ r s, f (set_robot r s) = f s) → preserves f (commanded_effort_store p x).
Proof.
  intros H s. unfold commanded_effort_store.
  destruct (_ !! p); simpl; [apply H | reflexivity].
Qed.

Create HintDb frame.
#[local] Hint Resolve preserves_gets preserves_vec_at
  preserves_joints_at preserves_pids_at preserves_targetVelocities_at
  preserves_deref : frame.
#[local] Hint Extern 1 (preserves _ (mret _)) => apply preserves_ret : frame.

(** Splits a computation along its structure and leaves the stores. *)
Ltac frame :=
  repeat first
    [ solve [auto with frame]
    | lazymatch goal with
      | |- preserves _ (match ?x with pair _ _ => _ end) => destruct x
      end
    | lazymatch goal with |- preserves _ _ => fail | |- _ => intro end
    | apply preserves_ret
    | apply preserves_bind
    | apply preserves_for_each
    | apply preserves_for_fold
    | apply preserves_for_until
    | apply preserves_when
    | apply preserves_ROS_ERROR
    | apply preserves_targetVelocities_store
    | apply preserves_pids_store
    | apply preserves_commanded_effort_store
    | apply preserves_modify
    | reflexivity ].

(** A non-empty command touches nothing but the targets and the log. *)
Lemma velocityCommand_frame {X} (f : State → X) velocities :
  velocities ≠ [] →
  (∀ l s, f (set_targetVelocities l s) = f s) →
  (∀ l s, f (set_rosout l s) = f s) →
  preserves f (velocityCommand velocities).
Proof.
  intros Hne Htv Hlog. destruct velocities as [|v0 vs]; [done|].
  unfold velocityCommand, correlate, command. frame.
Qed.

(** ** Start and empty command *)

Lemma set_pids_same s : set_pids (pids s) s = s.
Proof. destruct s; reflexivity. Qed.

Lemma reset_loop s pre rest :
  for_each (seq (length pre) (length rest)) reset_pid (set_pids (pre ++ rest) s)
  = Done () (set_pids (pre ++ (Pid_reset <$> rest)) s).
Proof.
  revert pre. induction rest as [|x rest IH]; intros pre; simpl.
  - reflexivity.
  - rewrite run_bind. unfold reset_pid at 1. rewrite run_bind.
    unfold pids_at at 1. simpl pids.
    rewrite (run_vec_at _ _ _ x) by (apply list_lookup_middle; reflexivity).
    unfold pids_store. simpl pids.
    rewrite decide_True by (rewrite length_app; simpl; lia).
    rewrite insert_app_r_alt, Nat.sub_diag by lia. simpl.
    specialize (IH (pre ++ [Pid_reset x])).
    rewrite length_app, Nat.add_1_r, <- !(assoc_L (++)) in IH. simpl in IH.
    exact IH.
Qed.

Lemma starting_spec s :
  starting s =
  Done () (set_lastTime (getTime (robot s)) (set_pids (Pid_reset <$> pids s) s)).
Proof.
  unfold starting. rewrite run_bind. simpl.
  rewrite run_bind.
  pose proof (reset_loop s [] (pids s)) as H. simpl in H.
  rewrite set_pids_same in H. rewrite H. reflexivity.
Qed.

Lemma Pid_reset_zeroed p : Pid_zeroed (Pid_reset p).
Proof. repeat split. Qed.

(** C5.  An empty command is a start event: whatever the state, it ends
    normally in the state [starting] gives, where every PID has been
    reset (gains kept, internal state zero), the clock baseline is the
    robot's current time, and the targets are the ones from before. *)
Theorem velocityCommand_empty_resets (s : State) :
  ∃ s', velocityCommand [] s = Done () s' ∧
        starting s = Done () s' ∧
        pids s' = Pid_reset <$> pids s ∧
        Forall Pid_zeroed (pids s') ∧
        lastTime s' = getTime (robot s) ∧
        targetVelocities s' = targetVelocities s.
Proof.
  eexists. split; [apply starting_spec|]. split; [apply starting_spec|].
  simpl. repeat split.
  apply Forall_fmap, Forall_true. intros p. apply Pid_reset_zeroed.
Qed.

(** C9.  A non-empty command leaves every PidController and the clock
    baseline [lastTime] as they were, in whatever state the command ends
    or stops. *)
Theorem velocityCommand_nonempty_frame (velocities : list JointValue) (s : State) :
  velocities ≠ [] →
  pids (final (velocityCommand velocities s)) = pids s ∧
  lastTime (final (velocityCommand velocities s)) = lastTime s.
Proof.
  intros Hne. split.
  - apply (velocityCommand_frame pids); [exact Hne | reflexivity..].
  - apply (velocityCommand_frame lastTime); [exact Hne | reflexivity..].
Qed.

(** ** The control cycle *)

Section Tick.
Variable updatePid : Pid → float → ros_Duration → float * Pid.

Lemma with_efforts_nil j0 : with_efforts [] j0 = j0.
Proof. destruct j0; reflexivity. Qed.

Lemma with_efforts_snoc es e j0 :
  set_commanded_effort
    (PrimFloat.add (commanded_effort_ (with_efforts es j0)) e)
    (with_efforts es j0)
  = with_efforts (es ++ [e]) j0.
Proof. unfold with_efforts. rewrite fold_left_app. reflexivity. Qed.

Lemma efforts_for_S s dt p i :
  efforts_for updatePid s dt p (seq 0 (S i)) =
  efforts_for updatePid s dt p (seq 0 i) ++
  (if decide (joints s !! i = Some p)
   then option_list (fst <$> pid_answer updatePid s dt i) else []).
Proof.
  unfold efforts_for. rewrite seq_S, omap_app. simpl.
  destruct (decide _); [|reflexivity].
  destruct (pid_answer _ _ _ _); reflexivity.
Qed.

Lemma pid_answer_ready s dt i :
  bindings_valid s → i < length (joints s) →
  i < length (targetVelocities s) → i < length (pids s) →
  ∃ p j target pid,
    joints s !! i = Some p ∧ joint_states_ (robot s) !! p = Some j ∧
    targetVelocities s !! i = Some target ∧ pids s !! i = Some pid ∧
    pid_answer updatePid s dt i =
      Some (updatePid pid (PrimFloat.sub (velocity_ j) target) dt).
Proof.
  intros Hval Hi Htv Hpid.
  destruct (lookup_lt_is_Some_2 (joints s) i Hi) as [p Hp].
  assert (p < length (joint_states_ (robot s))) as Hlt.
  { eapply (Forall_lookup_1 _ _ _ _ Hval Hp). }
  destruct (lookup_lt_is_Some_2 _ p Hlt) as [j Hj].
  destruct (lookup_lt_is_Some_2 (targetVelocities s) i Htv) as [t Ht].
  destruct (lookup_lt_is_Some_2 (pids s) i Hpid) as [pid Hq].
  exists p, j, t, pid. repeat split; try assumption.
  unfold pid_answer. rewrite Hp. simpl. rewrite Hj. simpl.
  rewrite Ht. simpl. rewrite Hq. reflexivity.
Qed.

Lemma tick_inv_start s0 dt : tick_inv updatePid s0 dt 0 s0.
Proof.
  split; try reflexivity.
  - intros k Hk. lia.
  - intros p. unfold efforts_for. simpl.
    destruct (_ !! p) as [j0|]; simpl; [|reflexivity].
    rewrite with_efforts_nil. reflexivity.
Qed.

Lemma tick_step s0 dt i s :
  bindings_valid s0 → tick_inv updatePid s0 dt i s →
  i < length (joints s0) → i < length (targetVelocities s0) →
  i < length (pids s0) →
  ∃ s', control updatePid dt i s = Done () s' ∧
        tick_inv updatePid s0 dt (S i) s'.
Proof.
  intros Hval Hinv Hi Hitv Hipid.
  destruct (pid_answer_ready s0 dt i Hval Hi Hitv Hipid)
    as (p & j0 & t & pid & Hp & Hj & Ht & Hq & Hans).
  destruct Hinv as [Ijs Itv Ilt Isub Ilog Itime Ilen Itodo Idone Irob].
  set (jc := with_efforts (efforts_for updatePid s0 dt p (seq 0 i)) j0).
  assert (joint_states_ (robot s) !! p = Some jc) as Hjc.
  { rewrite Irob, Hj. reflexivity. }
  unfold control.
  erewrite run_bind_Done by (unfold joints_at; apply run_vec_at; rewrite Ijs; exact Hp).
  erewrite run_bind_Done by (unfold deref; apply run_vec_at; exact Hjc).
  erewrite run_bind_Done
    by (unfold targetVelocities_at; apply run_vec_at; rewrite Itv; exact Ht).
  erewrite run_bind_Done
    by (unfold pids_at; apply run_vec_at; rewrite Itodo by lia; exact Hq).
  change (velocity_ jc) with (velocity_ j0).
  destruct (updatePid pid (PrimFloat.sub (velocity_ j0) t) dt) as [e q] eqn:E.
  rewrite run_bind. unfold pids_store.
  rewrite decide_True by (rewrite Ilen; apply lookup_lt_is_Some; eauto).
  unfold commanded_effort_store. simpl robot. rewrite Hjc.
  eexists. split; [reflexivity|].
  split; try assumption; simpl (pids _); simpl (joint_states_ _).
  - rewrite length_insert. exact Ilen.
  - intros k Hk. rewrite list_lookup_insert_ne by lia. apply Itodo. lia.
  - intros k Hk. destruct (decide (k = i)) as [->|Hne].
    + rewrite list_lookup_insert_eq
        by (rewrite Ilen; apply lookup_lt_is_Some; eauto).
      rewrite Hans. reflexivity.
    + rewrite list_lookup_insert_ne by lia. apply Idone. lia.
  - intros p'. rewrite efforts_for_S.
    destruct (decide (p' = p)) as [->|Hne].
    + rewrite list_lookup_insert_eq by (apply lookup_lt_is_Some; eauto).
      rewrite decide_True by exact Hp. rewrite Hans, Hj. simpl.
      f_equal. apply with_efforts_snoc.
    + rewrite list_lookup_insert_ne by congruence.
      rewrite decide_False by congruence. rewrite app_nil_r. apply Irob.
Qed.

Lemma tick_loop s0 dt k : ∀ i s,
  bindings_valid s0 → tick_inv updatePid s0 dt i s →
  i + k ≤ length (joints s0) → i + k ≤ length (targetVelocities s0) →
  i + k ≤ length (pids s0) →
  ∃ s', for_each (seq i k) (control updatePid dt) s = Done () s' ∧
        tick_inv updatePid s0 dt (i + k) s'.
Proof.
  induction k as [|k IH]; intros i s Hval Hinv Hik Hitv Hipid; simpl.
  - exists s. rewrite Nat.add_0_r. split; [reflexivity | exact Hinv].
  - destruct (tick_step s0 dt i s Hval Hinv ltac:(lia) ltac:(lia) ltac:(lia))
      as (s1 & Hrun & Hinv1).
    destruct (IH (S i) s1 Hval Hinv1 ltac:(lia) ltac:(lia) ltac:(lia))
      as (s2 & Hrun2 & Hinv2).
    exists s2. split.
    + erewrite run_bind_Done by exact Hrun. exact Hrun2.
    + replace (i + S k) with (S i + k) by lia. exact Hinv2.
Qed.

Lemma update_unfold s :
  update updatePid s =
  for_each (seq 0 (length (joints s)))
    (control updatePid (ros_Time_sub (getTime (robot s)) (lastTime s)))
    (set_lastTime (getTime (robot s)) s).
Proof. reflexivity. Qed.

(** A joint state bound at one position only receives one effort. *)
Lemma efforts_for_once s dt p i r n :
  NoDup (joints s) → joints s !! i = Some p →
  pid_answer updatePid s dt i = Some r →
  efforts_for updatePid s dt p (seq 0 n) = if decide (i < n) then [r.1] else [].
Proof.
  intros Hnd Hp Hr. induction n as [|n IH].
  - reflexivity.
  - rewrite efforts_for_S, IH. destruct (decide (n = i)) as [->|Hne].
    + rewrite (decide_False (P := i < i)) by lia.
      rewrite (decide_True (P := joints s !! i = Some p)) by exact Hp.
      rewrite decide_True by lia. rewrite Hr. reflexivity.
    + rewrite (decide_False (P := joints s !! n = Some p)).
      * rewrite app_nil_r. destruct (decide (i < n)).
        -- rewrite decide_True by lia. reflexivity.
        -- rewrite decide_False by lia. reflexivity.
      * intros Hn. apply Hne. exact (NoDup_lookup _ _ _ _ Hnd Hn Hp).
Qed.

(** C1.  A tick in a state whose vectors are as long as the bindings
    require ends normally.  The clock baseline becomes the robot's
    current time, and with [dt] the time elapsed since the previous
    baseline: the PID of every joint position [i] is advanced on the
    error [velocity - target[i]] and [dt]; the commanded effort of every
    joint state is its prior effort with the efforts of the positions
    bound to it added in order; when no joint is bound twice this is the
    prior effort plus the one effort the joint's PID answered. *)
Theorem update_tick (s : State) :
  tick_ready s →
  let dt := ros_Time_sub (getTime (robot s)) (lastTime s) in
  ∃ s', update updatePid s = Done () s' ∧
    lastTime s' = getTime (robot s) ∧
    joints s' = joints s ∧
    targetVelocities s' = targetVelocities s ∧
    (∀ i p j target pid,
       joints s !! i = Some p → joint_states_ (robot s) !! p = Some j →
       targetVelocities s !! i = Some target → pids s !! i = Some pid →
       pids s' !! i =
         Some (updatePid pid (PrimFloat.sub (velocity_ j) target) dt).2) ∧
    (∀ p j,
       joint_states_ (robot s) !! p = Some j →
       joint_states_ (robot s') !! p =
         Some (set_commanded_effort
                 (fold_left PrimFloat.add
                    (efforts_for updatePid s dt p (seq 0 (length (joints s))))
                    (commanded_effort_ j)) j)) ∧
    (NoDup (joints s) →
     ∀ i p j target pid,
       joints s !! i = Some p → joint_states_ (robot s) !! p = Some j →
       targetVelocities s !! i = Some target → pids s !! i = Some pid →
       joint_states_ (robot s') !! p =
         Some (set_commanded_effort
                 (PrimFloat.add (commanded_effort_ j)
                    (updatePid pid (PrimFloat.sub (velocity_ j) target) dt).1)
                 j)).
Proof.
  intros Hready dt.
  set (s0 := set_lastTime (getTime (robot s)) s).
  destruct Hready as (Hval & Hlen_tv & Hlen_pids).
  destruct (tick_loop s0 dt (length (joints s)) 0 s0 Hval
              (tick_inv_start s0 dt) ltac:(reflexivity) Hlen_tv Hlen_pids)
    as (s' & Hrun & Hinv).
  destruct Hinv as [Ijs Itv Ilt Isub Ilog Itime Ilen Itodo Idone Irob].
  simpl in Idone, Irob.
  assert (∀ i p j target pid,
    joints s !! i = Some p → joint_states_ (robot s) !! p = Some j →
    targetVelocities s !! i = Some target → pids s !! i = Some pid →
    pid_answer updatePid s dt i =
      Some (updatePid pid (PrimFloat.sub (velocity_ j) target) dt)) as Hans.
  { intros i p j t pid Hp Hj Ht Hq. unfold pid_answer.
    rewrite Hp. simpl. rewrite Hj. simpl. rewrite Ht. simpl.
    rewrite Hq. reflexivity. }
  exists s'. split; [exact Hrun|].
  split; [exact Ilt|]. split; [exact Ijs|]. split; [exact Itv|].
  split; [|split].
  - intros i p j t pid Hp Hj Ht Hq.
    rewrite Idone by (apply lookup_lt_is_Some; eauto).
    change (pid_answer updatePid s0 dt i) with (pid_answer updatePid s dt i).
    rewrite (Hans i p j t pid) by assumption. reflexivity.
  - intros p j Hj. rewrite Irob.
    change (joint_states_ (robot s0)) with (joint_states_ (robot s)).
    rewrite Hj. reflexivity.
  - intros Hnd i p j t pid Hp Hj Ht Hq. rewrite Irob.
    change (joint_states_ (robot s0)) with (joint_states_ (robot s)).
    rewrite Hj. simpl. unfold with_efforts.
    change (efforts_for updatePid s0 dt p) with (efforts_for updatePid s dt p).
    rewrite (efforts_for_once s dt p i _ _ Hnd Hp (Hans i p j t pid Hp Hj Ht Hq)).
    rewrite decide_True by (apply lookup_lt_is_Some; eauto).
    reflexivity.
Qed.

(** A tick with fewer targets than bound joints reads past the end of
    the target-velocity set, at the first position that has no target. *)
Lemma update_short s :
  bindings_valid s →
  length (targetVelocities s) < length (joints s) →
  length (joints s) ≤ length (pids s) →
  ∃ s', update updatePid s =
        Undefined vTargets (length (targetVelocities s)) s'.
Proof.
  intros Hval Hshort Hpids. rewrite update_unfold.
  set (dt := ros_Time_sub _ _). set (s0 := set_lastTime _ s).
  set (m := length (targetVelocities s)).
  replace (length (joints s)) with (m + S (length (joints s) - S m)) by lia.
  rewrite seq_app, for_each_app.
  destruct (tick_loop s0 dt m 0 s0 Hval (tick_inv_start s0 dt))
    as (s1 & Hrun & Hinv); [simpl; lia..|].
  erewrite run_bind_Done by exact Hrun. simpl.
  destruct Hinv as [Ijs Itv Ilt Isub Ilog Itime Ilen Itodo Idone Irob].
  destruct (lookup_lt_is_Some_2 (joints s) m Hshort) as [p Hp].
  assert (p < length (joint_states_ (robot s))) as Hlt.
  { eapply (Forall_lookup_1 _ _ _ _ Hval Hp). }
  destruct (lookup_lt_is_Some_2 _ p Hlt) as [j Hj].
  rewrite run_bind. unfold control at 1.
  erewrite run_bind_Done
    by (unfold joints_at; apply run_vec_at; rewrite Ijs; exact Hp).
  erewrite run_bind_Done
    by (unfold deref; apply run_vec_at; rewrite Irob;
        change (joint_states_ (robot s0)) with (joint_states_ (robot s));
        rewrite Hj; reflexivity).
  erewrite run_bind_Undefined
    by (unfold targetVelocities_at; apply run_vec_at_None; rewrite Itv;
        apply lookup_ge_None; reflexivity).
  eexists. reflexivity.
Qed.
End Tick.

(** ** Commands *)

Lemma locate_none nm k velocities :
  locate nm k velocities = (-1)%Z ↔ ∀ v, v ∈ velocities → joint_uri v ≠ nm.
Proof.
  revert k. induction velocities as [|v vs IH]; intros k; simpl.
  - split; [|reflexivity]. intros _ v Hv. inversion Hv.
  - destruct (String.eqb_spec (joint_uri v) nm) as [Heq|Hne].
    + split; [lia|]. intros H. destruct (H v); [left | exact Heq].
    + rewrite IH. split.
      * intros H v' Hv'. inversion Hv'; subst; auto.
      * intros H v' Hv'. apply H. right. exact Hv'.
Qed.

Lemma locate_first nm k velocities i v :
  first_match nm velocities i v → locate nm k velocities = Z.of_nat (k + i).
Proof.
  revert k i. induction velocities as [|v0 vs IH]; intros k i (Hi & Hnm & Hfirst).
  - inversion Hi.
  - simpl. destruct i as [|i].
    + simpl in Hi. injection Hi as ->. rewrite (proj2 (String.eqb_eq _ _) Hnm).
      f_equal. lia.
    + rewrite (proj2 (String.eqb_neq _ _) (Hfirst 0 v0 ltac:(lia) eq_refl)).
      rewrite (IH (S k) i).
      * f_equal. lia.
      * split; [exact Hi|]. split; [exact Hnm|].
        intros k' v' Hk' Hv'. apply (Hfirst (S k') v'); [lia | exact Hv'].
Qed.

Lemma locate_found nm k velocities :
  locate nm k velocities ≠ (-1)%Z →
  ∃ i v, first_match nm velocities i v ∧
         locate nm k velocities = Z.of_nat (k + i).
Proof.
  revert k. induction velocities as [|v0 vs IH]; intros k; simpl.
  - intros H. done.
  - destruct (String.eqb_spec (joint_uri v0) nm) as [Heq|Hne].
    + intros _. exists 0, v0. split.
      * split; [reflexivity|]. split; [exact Heq|]. intros k' v' Hk'. lia.
      * f_equal. lia.
    + intros H. destruct (IH (S k) H) as (i & v & (Hi & Hnm & Hfirst) & Hloc).
      exists (S i), v. split.
      * split; [exact Hi|]. split; [exact Hnm|].
        intros [|k'] v' Hk' Hv'.
        -- simpl in Hv'. injection Hv' as <-. exact Hne.
        -- apply (Hfirst k' v'); [lia | exact Hv'].
      * rewrite Hloc. f_equal. lia.
Qed.

Lemma located_at_ok s velocities : lookup_ok velocities (located_at s velocities <$> joints s).
Proof.
  intros j l. rewrite list_lookup_fmap. intros Hl.
  destruct (joints s !! j) as [p|]; [|done]. simpl in Hl. injection Hl as <-.
  unfold located_at. destruct (_ !! p) as [jt|]; simpl; [|left; reflexivity].
  destruct (decide (locate (name (joint_ jt)) 0 velocities = (-1)%Z)) as [?|Hne];
    [left; assumption|].
  right. destruct (locate_found _ _ _ Hne) as (i & v & (Hi & _) & ->).
  exists v. rewrite Nat2Z.id. exact Hi.
Qed.

Lemma correlate_loop velocities s rest : ∀ pre lg,
  joints s = pre ++ rest →
  Forall (λ p, p < length (joint_states_ (robot s))) rest →
  for_fold (seq (length pre) (length rest)) (correlate velocities)
    ((located_at s velocities <$> pre) ++ replicate (length rest) (-1)%Z)
    (set_rosout lg s)
  = Done (located_at s velocities <$> (pre ++ rest))
         (set_rosout (lg ++ omap (unlocated_at s velocities) rest) s).
Proof.
  induction rest as [|p rest IH]; intros pre lg Hjs Hval; simpl.
  - rewrite !app_nil_r. reflexivity.
  - inversion Hval as [|? ? Hp Hrest]; subst.
    destruct (lookup_lt_is_Some_2 _ p Hp) as [jt Hjt].
    rewrite run_bind. unfold correlate at 1.
    erewrite run_bind_Done
      by (unfold joints_at; apply run_vec_at; simpl; rewrite Hjs;
          apply list_lookup_middle; reflexivity).
    erewrite run_bind_Done by (unfold deref; apply run_vec_at; exact Hjt).
    rewrite insert_app_r_alt by (rewrite length_fmap; lia).
    rewrite length_fmap, Nat.sub_diag. simpl.
    erewrite run_bind_Done
      by (apply run_vec_at; apply list_lookup_middle; rewrite length_fmap;
          reflexivity).
    specialize (IH (pre ++ [p])).
    rewrite length_app, Nat.add_1_r, fmap_app, <- !(assoc_L (++)) in IH.
    simpl in IH. unfold located_at at 2 in IH. rewrite Hjt in IH. simpl in IH.
    unfold unlocated_at at 1. rewrite Hjt. simpl.
    destruct (bool_decide _); simpl.
    + etrans; [exact (IH (lg ++ [_]) Hjs Hrest)|].
      rewrite <- (assoc_L (++)). reflexivity.
    + exact (IH lg Hjs Hrest).
Qed.

Lemma set_rosout_same s : set_rosout (rosout s) s = s.
Proof. destruct s; reflexivity. Qed.

Lemma velocityCommand_unfold velocities s :
  velocities ≠ [] → bindings_valid s →
  velocityCommand velocities s =
  for_each (seq 0 (length (joints s)))
    (command velocities (located_at s velocities <$> joints s))
    (correlated s velocities).
Proof.
  intros Hne Hval. destruct velocities as [|v0 vs]; [done|].
  unfold velocityCommand.
  rewrite (run_bind_Done (gets _) _ s (length (joints s)) s eq_refl).
  pose proof (correlate_loop (v0 :: vs) s (joints s) [] (rosout s)
                eq_refl Hval) as H.
  simpl in H. rewrite set_rosout_same in H.
  erewrite run_bind_Done by exact H. reflexivity.
Qed.

(** One round of the second loop, case by case. *)
Lemma command_skip velocities lookup j s :
  lookup !! j = Some (-1)%Z → command velocities lookup j s = Done () s.
Proof.
  intros Hl. unfold command.
  erewrite run_bind_Done by (apply run_vec_at; exact Hl). reflexivity.
Qed.

Lemma command_write velocities lookup j l v s :
  lookup !! j = Some l → l ≠ (-1)%Z → velocities !! Z.to_nat l = Some v →
  targetVelocities s ≠ [] →
  command velocities lookup j s =
  if decide (j < length (targetVelocities s))
  then Done () (set_targetVelocities (<[j:=value v]> (targetVelocities s))
                  (flag_unit v s))
  else Undefined vTargets j (flag_unit v s).
Proof.
  intros Hl Hne Hv Htv. unfold command.
  erewrite run_bind_Done by (apply run_vec_at; exact Hl).
  rewrite bool_decide_eq_false_2 by exact Hne. simpl.
  erewrite run_bind_Done by (apply run_vec_at; exact Hv).
  unfold flag_unit, targetVelocities_store.
  destruct (String.eqb (unit v) radian_per_second); simpl.
  - rewrite run_bind. simpl. rewrite run_bind. simpl.
    rewrite bool_decide_eq_false_2 by exact Htv. simpl.
    destruct (decide _); reflexivity.
  - rewrite run_bind. simpl. rewrite run_bind. simpl.
    rewrite bool_decide_eq_false_2 by exact Htv. simpl.
    destruct (decide _); reflexivity.
Qed.

Lemma flag_unit_targetVelocities v s :
  targetVelocities (flag_unit v s) = targetVelocities s.
Proof. unfold flag_unit. destruct (String.eqb _ _); reflexivity. Qed.

Lemma flag_unit_rosout v s :
  ∃ lg, rosout (flag_unit v s) = rosout s ++ lg ∧
        (unit v ≠ radian_per_second →
         IncompatibleUnits (joint_uri v) (unit v) ∈ lg).
Proof.
  unfold flag_unit. destruct (String.eqb_spec (unit v) radian_per_second); simpl.
  - exists []. rewrite app_nil_r. split; [reflexivity | done].
  - eexists. split; [reflexivity|]. intros _. left.
Qed.

Section CommandLoop.
Variable velocities : list JointValue.
Variable lookup : list Z.
Hypothesis lookup_entries : lookup_ok velocities lookup.

Let round := command velocities lookup.

(** What a completed run of the second loop over the joint positions
    [i .. i+k-1] has done. *)
Lemma command_loop_done k : ∀ i s s',
  i + k ≤ length lookup → targetVelocities s ≠ [] →
  for_each (seq i k) round s = Done () s' →
  length (targetVelocities s') = length (targetVelocities s) ∧
  (∀ j, j < i ∨ i + k ≤ j ∨ lookup !! j = Some (-1)%Z →
        targetVelocities s' !! j = targetVelocities s !! j) ∧
  ∃ lg, rosout s' = rosout s ++ lg ∧
    ∀ j l v, i ≤ j < i + k → lookup !! j = Some l → l ≠ (-1)%Z →
             velocities !! Z.to_nat l = Some v →
             targetVelocities s' !! j = Some (value v) ∧
             (unit v ≠ radian_per_second →
              IncompatibleUnits (joint_uri v) (unit v) ∈ lg).
Proof.
  induction k as [|k IH]; intros i s s' Hik Htv Hrun; simpl in Hrun.
  - injection Hrun as <-. split; [reflexivity|]. split; [reflexivity|].
    exists []. split; [rewrite app_nil_r; reflexivity|].
    intros j l v Hj. lia.
  - rewrite run_bind in Hrun.
    destruct (lookup_lt_is_Some_2 lookup i ltac:(lia)) as [l Hl].
    destruct (decide (l = (-1)%Z)) as [->|Hne].
    + unfold round at 1 in Hrun. rewrite (command_skip _ _ _ _ Hl) in Hrun.
      destruct (IH (S i) s s' ltac:(lia) Htv Hrun)
        as (Hlen & Hkeep & lg & Hlg & Hset).
      split; [exact Hlen|]. split.
      * intros j Hj. apply Hkeep.
        destruct (decide (j = i)) as [->|]; [left; lia|].
        destruct Hj as [?|[?|?]]; [left; lia | right; left; lia | right; right; done].
      * exists lg. split; [exact Hlg|].
        intros j l v Hj Hlj Hnej Hv.
        destruct (decide (j = i)) as [->|]; [congruence|].
        apply (Hset j l v); [lia | assumption..].
    + destruct (lookup_entries i l Hl) as [?|[v0 Hv0]]; [done|].
      unfold round at 1 in Hrun.
      rewrite (command_write _ _ _ _ _ _ Hl Hne Hv0 Htv) in Hrun.
      destruct (decide (i < length (targetVelocities s))) as [Hi|]; [|done].
      set (s1 := set_targetVelocities _ _) in Hrun.
      assert (length (targetVelocities s1) = length (targetVelocities s)) as Hlen1.
      { unfold s1. simpl. apply length_insert. }
      assert (targetVelocities s1 ≠ []) as Htv1.
      { intros H. rewrite H in Hlen1. destruct (targetVelocities s); done. }
      destruct (IH (S i) s1 s' ltac:(lia) Htv1 Hrun)
        as (Hlen & Hkeep & lg & Hlg & Hset).
      destruct (flag_unit_rosout v0 s) as (lg0 & Hlg0 & Hin0).
      split; [congruence|]. split.
      * intros j Hj.
        assert (j ≠ i) as Hji.
        { intros ->. destruct Hj as [?|[?|?]]; [lia | lia | congruence]. }
        rewrite Hkeep.
        -- unfold s1. simpl. apply list_lookup_insert_ne. congruence.
        -- destruct Hj as [?|[?|?]]; [left; lia | right; left; lia | right; right; done].
      * exists (lg0 ++ lg). split.
        { rewrite Hlg. unfold s1. simpl. rewrite Hlg0, (assoc_L (++)). reflexivity. }
        intros j l' v Hj Hlj Hnej Hv.
        destruct (decide (j = i)) as [->|Hji].
        -- assert (l' = l) as -> by congruence.
           assert (v = v0) as -> by congruence.
           split.
           ++ rewrite Hkeep by (left; lia). unfold s1. simpl.
              apply list_lookup_insert_eq. exact Hi.
           ++ intros Hu. apply elem_of_app. left. apply Hin0. exact Hu.
        -- destruct (Hset j l' v) as [Hw Hin]; [lia | assumption..|].
           split; [exact Hw|]. intros Hu. apply elem_of_app. right. auto.
Qed.

(** With a slot for every joint position the second loop completes. *)
Lemma command_loop_total k : ∀ i s,
  i + k ≤ length lookup → i + k ≤ length (targetVelocities s) →
  targetVelocities s ≠ [] →
  ∃ s', for_each (seq i k) round s = Done () s'.
Proof.
  induction k as [|k IH]; intros i s Hik Hlen Htv; simpl.
  - eexists. reflexivity.
  - rewrite run_bind.
    destruct (lookup_lt_is_Some_2 lookup i ltac:(lia)) as [l Hl].
    destruct (decide (l = (-1)%Z)) as [->|Hne].
    + unfold round at 1. rewrite (command_skip _ _ _ _ Hl).
      apply IH; [lia | lia | exact Htv].
    + destruct (lookup_entries i l Hl) as [?|[v0 Hv0]]; [done|].
      unfold round at 1.
      rewrite (command_write _ _ _ _ _ _ Hl Hne Hv0 Htv).
      rewrite decide_True by lia.
      apply IH; simpl; rewrite ?length_insert, ?flag_unit_targetVelocities;
        [lia | lia |].
      intros H. apply (f_equal length) in H.
      rewrite length_insert in H.
      destruct (targetVelocities s); done.
Qed.

(** A correlated joint position beyond the end of the target-velocity
    set stops the second loop at a write past the end. *)
Lemma command_loop_overrun k : ∀ i s j l,
  i + k ≤ length lookup → targetVelocities s ≠ [] →
  i ≤ j < i + k → length (targetVelocities s) ≤ j →
  lookup !! j = Some l → l ≠ (-1)%Z →
  ∃ j' s', for_each (seq i k) round s = Undefined vTargets j' s' ∧
           length (targetVelocities s') = length (targetVelocities s) ∧
           length (targetVelocities s) ≤ j' ≤ j.
Proof.
  induction k as [|k IH]; intros i s j l Hik Htv Hj Hover Hl Hne; [lia|].
  simpl. rewrite run_bind.
  destruct (lookup_lt_is_Some_2 lookup i ltac:(lia)) as [li Hli].
  destruct (decide (li = (-1)%Z)) as [->|Hnei].
  - unfold round at 1. rewrite (command_skip _ _ _ _ Hli).
    assert (j ≠ i) by congruence.
    apply (IH (S i) s j l); [lia | assumption | lia | assumption..].
  - destruct (lookup_entries i li Hli) as [?|[v0 Hv0]]; [done|].
    unfold round at 1.
    rewrite (command_write _ _ _ _ _ _ Hli Hnei Hv0 Htv).
    destruct (decide (i < length (targetVelocities s))) as [Hi|Hi].
    + set (s1 := set_targetVelocities _ _).
      assert (length (targetVelocities s1) = length (targetVelocities s)) as Hlen1.
      { unfold s1. simpl. apply length_insert. }
      destruct (IH (S i) s1 j l) as (j' & s' & Hrun & Hlen & Hj');
        [lia | | lia | lia | assumption | assumption |].
      * intros H. rewrite H in Hlen1. destruct (targetVelocities s); done.
      * exists j', s'. split; [exact Hrun|]. split; [congruence | lia].
    + exists i, (flag_unit v0 s). split; [reflexivity|].
      split; [rewrite flag_unit_targetVelocities; reflexivity | lia].
Qed.

(** However the rounds from position [i] on end, they only add to the log
    and leave the slots below [i] as they were. *)
Lemma command_loop_after k : ∀ i s,
  targetVelocities s ≠ [] →
  (∃ lg, rosout (final (for_each (seq i k) round s)) = rosout s ++ lg) ∧
  ∀ j, j < i →
       targetVelocities (final (for_each (seq i k) round s)) !! j
       = targetVelocities s !! j.
Proof.
  induction k as [|k IH]; intros i s Htv; simpl for_each.
  - split; [exists []; rewrite app_nil_r; reflexivity | reflexivity].
  - rewrite run_bind. unfold round at 1 3. destruct (lookup !! i) as [l|] eqn:Hl.
    2:{ unfold command.
        erewrite !run_bind_Undefined by (apply run_vec_at_None; exact Hl).
        split; [exists []; rewrite app_nil_r; reflexivity | reflexivity]. }
    destruct (decide (l = (-1)%Z)) as [->|Hne].
    { rewrite (command_skip _ _ _ _ Hl).
      destruct (IH (S i) s Htv) as [Hlg Hkeep].
      split; [exact Hlg | intros j Hj; apply Hkeep; lia]. }
    destruct (lookup_entries i l Hl) as [?|[v Hv]]; [done|].
    rewrite (command_write _ _ _ _ _ _ Hl Hne Hv Htv).
    destruct (flag_unit_rosout v s) as (lg0 & Hlg0 & _).
    destruct (decide (i < length (targetVelocities s))) as [Hi|Hi].
    + set (s1 := set_targetVelocities _ _).
      destruct (IH (S i) s1) as [[lg Hlg] Hkeep].
      { intros H. apply (f_equal length) in H. unfold s1 in H.
        simpl targetVelocities in H. rewrite length_insert in H.
        destruct (targetVelocities s); done. }
      split.
      * exists (lg0 ++ lg). rewrite Hlg. unfold s1. simpl.
        rewrite Hlg0, (assoc_L (++)). reflexivity.
      * intros j Hj. rewrite Hkeep by lia. unfold s1. simpl.
        apply list_lookup_insert_ne. lia.
    + simpl. split; [exists lg0; exact Hlg0|].
      intros j Hj. rewrite flag_unit_targetVelocities. reflexivity.
Qed.

(** The round of a correlated joint position [j].  Unless the loop stops
    before it, at a write past the end for an earlier position, that
    round logs the report for the unit of its entry; it writes the
    entry's value when [j] has a slot, and stops the loop at the write
    [targetVelocities[j]] when it has none.  What it logs and writes
    stays, however the later rounds end. *)
Lemma command_loop_reach k : ∀ i s j l v,
  i + k ≤ length lookup → targetVelocities s ≠ [] →
  i ≤ j < i + k → lookup !! j = Some l → l ≠ (-1)%Z →
  velocities !! Z.to_nat l = Some v →
  (∃ j' s', for_each (seq i k) round s = Undefined vTargets j' s' ∧
            j' < j ∧ length (targetVelocities s) ≤ j')
  ∨ ((∃ lg, rosout (final (for_each (seq i k) round s)) = rosout s ++ lg ∧
            (unit v ≠ radian_per_second →
             IncompatibleUnits (joint_uri v) (unit v) ∈ lg)) ∧
     (j < length (targetVelocities s) →
      targetVelocities (final (for_each (seq i k) round s)) !! j
      = Some (value v)) ∧
     (length (targetVelocities s) ≤ j →
      ∃ s', for_each (seq i k) round s = Undefined vTargets j s')).
Proof.
  induction k as [|k IH]; intros i s j l v Hik Htv Hj Hl Hne Hv; [lia|].
  assert (∀ s1, length (targetVelocities s1) = length (targetVelocities s) →
                targetVelocities s1 ≠ []) as Hnonempty.
  { intros s1 Hlen H. rewrite H in Hlen. destruct (targetVelocities s); done. }
  destruct (lookup_lt_is_Some_2 lookup i ltac:(lia)) as [li Hli].
  assert (for_each (seq i (S k)) round s
          = match round i s with
            | Done _ s1 => for_each (seq (S i) k) round s1
            | Undefined w n s1 => Undefined w n s1
            end) as Hstep by reflexivity.
  rewrite Hstep. clear Hstep. unfold round at 1 3 5 7.
  destruct (decide (li = (-1)%Z)) as [->|Hnei].
  { rewrite (command_skip _ _ _ _ Hli).
    assert (j ≠ i) by congruence.
    apply (IH (S i) s j l v); [lia | assumption | lia | assumption..]. }
  destruct (lookup_entries i li Hli) as [?|[v0 Hv0]]; [done|].
  rewrite (command_write _ _ _ _ _ _ Hli Hnei Hv0 Htv).
  destruct (flag_unit_rosout v0 s) as (lg0 & Hlg0 & Hin0).
  destruct (decide (i < length (targetVelocities s))) as [Hi|Hi].
  - set (s1 := set_targetVelocities _ _).
    assert (length (targetVelocities s1) = length (targetVelocities s)) as Hlen1.
    { unfold s1. simpl. apply length_insert. }
    assert (rosout s1 = rosout s ++ lg0) as Hlog1 by exact Hlg0.
    destruct (decide (j = i)) as [->|Hji].
    + assert (li = l) as -> by congruence. assert (v0 = v) as -> by congruence.
      destruct (command_loop_after k (S i) s1 (Hnonempty s1 Hlen1))
        as [[lg Hlg] Hkeep].
      right. split; [|split].
      * exists (lg0 ++ lg). split.
        -- rewrite Hlg, Hlog1, (assoc_L (++)). reflexivity.
        -- intros Hu. apply elem_of_app. left. apply Hin0. exact Hu.
      * intros _. rewrite Hkeep by lia. unfold s1. simpl.
        apply list_lookup_insert_eq. exact Hi.
      * intros Hover. lia.
    + destruct (IH (S i) s1 j l v) as [(j' & s' & Hrun & Hj' & Hover)|(Hlog & Hw & Hstop)];
        [lia | exact (Hnonempty s1 Hlen1) | lia | assumption..| |].
      * left. exists j', s'. split; [exact Hrun|]. split; [exact Hj' | lia].
      * right. destruct Hlog as (lg & Hlg & Hin). split; [|split].
        -- exists (lg0 ++ lg). split.
           ++ rewrite Hlg, Hlog1, (assoc_L (++)). reflexivity.
           ++ intros Hu. apply elem_of_app. right. apply Hin. exact Hu.
        -- intros Hjs. apply Hw. lia.
        -- intros Hover. apply Hstop. lia.
  - destruct (decide (j = i)) as [->|Hji].
    + assert (li = l) as -> by congruence. assert (v0 = v) as -> by congruence.
      right. split; [|split].
      * exists lg0. split; [exact Hlg0 | exact Hin0].
      * intros Hjs. lia.
      * intros _. eexists. reflexivity.
    + left. eexists i, _. split; [reflexivity|]. split; lia.
Qed.
End CommandLoop.

Lemma length_resize {A} n (d : A) v : length (resize n d v) = n.
Proof. unfold resize. rewrite length_app, length_take, length_replicate. lia. Qed.

Lemma correlated_targets_nonempty s velocities :
  velocities ≠ [] → targetVelocities (correlated s velocities) ≠ [].
Proof.
  intros Hne H. apply (f_equal length) in H. simpl in H.
  rewrite length_resize in H. destruct velocities; done.
Qed.

Lemma located_lookup s velocities j p jt :
  joints s !! j = Some p → joint_states_ (robot s) !! p = Some jt →
  (located_at s velocities <$> joints s) !! j
  = Some (locate (name (joint_ jt)) 0 velocities).
Proof.
  intros Hp Hjt. rewrite list_lookup_fmap, Hp. simpl.
  unfold located_at. rewrite Hjt. reflexivity.
Qed.

(** What a command that completes leaves in the target-velocity set: as
    many slots as the command has entries; in the slot of a joint position
    that no entry names, whatever the resize left there. *)
Lemma velocityCommand_done_targets velocities s s' :
  velocities ≠ [] → bindings_valid s →
  velocityCommand velocities s = Done () s' →
  length (targetVelocities s') = length velocities ∧
  ∀ j p jt, joints s !! j = Some p → joint_states_ (robot s) !! p = Some jt →
            ¬ commanded (name (joint_ jt)) velocities →
            targetVelocities s' !! j =
            resize (length velocities) 0%float (targetVelocities s) !! j.
Proof.
  intros Hne Hval Hrun. rewrite velocityCommand_unfold in Hrun by assumption.
  destruct (command_loop_done velocities _ (located_at_ok s velocities)
              (length (joints s)) 0 _ s'
              ltac:(rewrite length_fmap; reflexivity)
              (correlated_targets_nonempty s velocities Hne) Hrun)
    as (Hlen & Hkeep & _).
  split.
  - rewrite Hlen. simpl. apply length_resize.
  - intros j p jt Hp Hjt Hnot. rewrite Hkeep; [reflexivity|].
    right. right. rewrite (located_lookup _ _ _ _ _ Hp Hjt). f_equal.
    apply locate_none. intros v Hv Hnm. apply Hnot. exists v. done.
Qed.

(** [locate] reads the names of the entries only. *)
Lemma locate_same_uris nm vs1 : ∀ vs2 k,
  joint_uri <$> vs1 = joint_uri <$> vs2 → locate nm k vs1 = locate nm k vs2.
Proof.
  induction vs1 as [|v1 vs1 IH]; intros [|v2 vs2] k H; try discriminate.
  - reflexivity.
  - simpl in H. injection H as Hv Hrest. simpl. rewrite Hv.
    destruct (String.eqb _ _); [reflexivity|]. apply IH. exact Hrest.
Qed.

Lemma for_each_ext idx body1 body2 :
  (∀ i s, body1 i s = body2 i s) →
  ∀ s, for_each idx body1 s = for_each idx body2 s.
Proof.
  intros Hbody. induction idx as [|i idx IH]; intros s; simpl.
  - reflexivity.
  - rewrite !run_bind, Hbody. destruct (body2 i s) as [[] s'|w n s'];
      [apply IH | reflexivity].
Qed.

(** A round of the second loop reads of the command only the entry that
    [lookup] points it to. *)
Lemma command_same_entries vs1 vs2 lookup j s :
  (∀ l, lookup !! j = Some l → l ≠ (-1)%Z →
        vs1 !! Z.to_nat l = vs2 !! Z.to_nat l) →
  command vs1 lookup j s = command vs2 lookup j s.
Proof.
  intros H. unfold command. rewrite !run_bind. unfold vec_at at 1 3.
  destruct (lookup !! j) as [l|]; [|reflexivity].
  destruct (decide (l = (-1)%Z)) as [->|Hne]; [reflexivity|].
  rewrite bool_decide_eq_false_2 by exact Hne. simpl.
  rewrite !run_bind. unfold vec_at. rewrite (H l eq_refl Hne). reflexivity.
Qed.

(** An entry that comes after another entry with the same [joint_uri] is
    never used: with any value and any unit in its place the command
    does the same. *)
Lemma velocityCommand_later_entry_unread velocities s k0 k' e0 e' e'' :
  bindings_valid s → k0 < k' →
  velocities !! k0 = Some e0 → velocities !! k' = Some e' →
  joint_uri e0 = joint_uri e' → joint_uri e'' = joint_uri e' →
  velocityCommand (<[k':=e'']> velocities) s = velocityCommand velocities s.
Proof.
  intros Hval Hlt Hk0 Hk' Hsame Huri.
  assert (joint_uri <$> <[k':=e'']> velocities = joint_uri <$> velocities) as Huris.
  { rewrite list_fmap_insert, Huri. apply list_insert_id.
    rewrite list_lookup_fmap, Hk'. reflexivity. }
  assert (velocities ≠ []) as Hne by (intros ->; inversion Hk0).
  assert (<[k':=e'']> velocities ≠ []) as Hne'.
  { intros H. apply (f_equal length) in H. rewrite length_insert in H.
    destruct velocities; done. }
  rewrite !velocityCommand_unfold by assumption.
  assert (∀ p, located_at s (<[k':=e'']> velocities) p = located_at s velocities p)
    as Hloc.
  { intros p. unfold located_at. destruct (_ !! p) as [jt|]; simpl; [|reflexivity].
    apply locate_same_uris. exact Huris. }
  assert (∀ p, unlocated_at s (<[k':=e'']> velocities) p
               = unlocated_at s velocities p) as Hunl.
  { intros p. unfold unlocated_at. destruct (_ !! p) as [jt|]; simpl; [|reflexivity].
    rewrite (locate_same_uris _ _ _ 0 Huris). reflexivity. }
  assert (located_at s (<[k':=e'']> velocities) <$> joints s
          = located_at s velocities <$> joints s) as ->.
  { induction (joints s) as [|p ps IH]; [reflexivity|].
    rewrite !fmap_cons, Hloc, IH. reflexivity. }
  assert (correlated s (<[k':=e'']> velocities) = correlated s velocities) as ->.
  { unfold correlated. rewrite length_insert.
    assert (∀ ps, omap (unlocated_at s (<[k':=e'']> velocities)) ps
                  = omap (unlocated_at s velocities) ps) as ->; [|reflexivity].
    induction ps as [|p ps IH]; [reflexivity|].
    cbn [omap list_omap]. rewrite Hunl. destruct (unlocated_at _ _ p); 
      [f_equal|]; exact IH. }
  apply for_each_ext. intros j s0. apply command_same_entries.
  intros l Hl Hnel. apply list_lookup_insert_ne. intros Heq.
  rewrite list_lookup_fmap in Hl.
  destruct (joints s !! j) as [p|]; [|discriminate].
  simpl in Hl. injection Hl as Hl. unfold located_at in Hl.
  destruct (joint_states_ (robot s) !! p) as [jt|]; simpl in Hl; [|congruence].
  rewrite <- Hl in Hnel.
  destruct (locate_found _ _ _ Hnel) as (i & v & (Hi & Hnm & Hfirst) & Hloci).
  rewrite Hloci in Hl. simpl in Hl. subst l. rewrite Nat2Z.id in Heq. subst i.
  assert (v = e') as -> by congruence.
  apply (Hfirst k0 e0 Hlt Hk0). congruence.
Qed.

(** C8, as the code has it.  Take a bound joint and the entry the command
    correlates with it (the first entry that names the joint), and let the
    unit of that entry differ from the radians-per-second unit string.  A
    command with an entry for every joint position completes; and whenever
    the command completes, the joint's target slot holds the entry's value
    as it was sent, and the log has gained an incompatible-units report
    for that entry.  The same holds of the state the command ends or
    stops in whenever the joint's position is below the entry count.  A
    later entry that names the joint is not used: with any other entry of
    that name in its place, whatever its value and unit, the command does
    the same. *)
Theorem velocityCommand_incompatible_unit
    (velocities : list JointValue) (s : State) (j : nat) (p : JointStatePtr)
    (jt : JointState) (k : nat) (v : JointValue) :
  bindings_valid s →
  joints s !! j = Some p → joint_states_ (robot s) !! p = Some jt →
  first_match (name (joint_ jt)) velocities k v →
  unit v ≠ radian_per_second →
  (length (joints s) ≤ length velocities →
   ∃ s', velocityCommand velocities s = Done () s') ∧
  (∀ s', velocityCommand velocities s = Done () s' →
         targetVelocities s' !! j = Some (value v) ∧
         ∃ lg, rosout s' = rosout s ++ lg ∧
               IncompatibleUnits (joint_uri v) (unit v) ∈ lg) ∧
  (j < length velocities →
   targetVelocities (final (velocityCommand velocities s)) !! j
   = Some (value v) ∧
   ∃ lg, rosout (final (velocityCommand velocities s)) = rosout s ++ lg ∧
         IncompatibleUnits (joint_uri v) (unit v) ∈ lg) ∧
  (∀ k' e' e'', k < k' → velocities !! k' = Some e' →
                joint_uri e' = name (joint_ jt) →
                joint_uri e'' = name (joint_ jt) →
                velocityCommand (<[k':=e'']> velocities) s
                = velocityCommand velocities s).
Proof.
  intros Hval Hp Hjt Hfirst Hunit.
  assert (velocities ≠ []) as Hne.
  { destruct Hfirst as [Hk _]. intros ->. inversion Hk. }
  pose proof (locate_first _ 0 _ _ _ Hfirst) as Hloc. simpl in Hloc.
  split; [|split; [|split]].
  - rewrite velocityCommand_unfold by assumption. intros Hlen.
    apply (command_loop_total velocities _ (located_at_ok s velocities)).
    + rewrite length_fmap. reflexivity.
    + simpl. rewrite length_resize. exact Hlen.
    + apply correlated_targets_nonempty. exact Hne.
  - rewrite velocityCommand_unfold by assumption. intros s' Hrun.
    destruct (command_loop_done velocities _ (located_at_ok s velocities)
                (length (joints s)) 0 _ s'
                ltac:(rewrite length_fmap; reflexivity)
                (correlated_targets_nonempty s velocities Hne) Hrun)
      as (_ & _ & lg & Hlg & Hset).
    destruct (Hset j (Z.of_nat k) v) as [Hw Hin].
    + split; [lia|]. apply lookup_lt_is_Some. eauto.
    + rewrite (located_lookup _ _ _ _ _ Hp Hjt), Hloc. reflexivity.
    + lia.
    + rewrite Nat2Z.id. apply Hfirst.
    + split; [exact Hw|]. eexists. split.
      * rewrite Hlg. simpl. rewrite <- (assoc_L (++)). reflexivity.
      * apply elem_of_app. right. apply Hin. exact Hunit.
  - rewrite velocityCommand_unfold by assumption. intros Hj.
    destruct (command_loop_reach velocities _ (located_at_ok s velocities)
                (length (joints s)) 0 (correlated s velocities) j
                (Z.of_nat k) v)
      as [(j' & s' & _ & Hj' & Hover)|((lg & Hlg & Hin) & Hw & _)].
    + rewrite length_fmap. reflexivity.
    + apply correlated_targets_nonempty. exact Hne.
    + split; [lia|]. apply lookup_lt_is_Some. eauto.
    + rewrite (located_lookup _ _ _ _ _ Hp Hjt), Hloc. reflexivity.
    + lia.
    + rewrite Nat2Z.id. apply Hfirst.
    + simpl in Hover. rewrite length_resize in Hover. lia.
    + split.
      * apply Hw. simpl. rewrite length_resize. exact Hj.
      * eexists. split.
        -- rewrite Hlg. simpl. rewrite <- (assoc_L (++)). reflexivity.
        -- apply elem_of_app. right. apply Hin. exact Hunit.
  - intros k' e' e'' Hk Hk' He' He''.
    destruct Hfirst as (Hkv & Hnm & _).
    apply (velocityCommand_later_entry_unread velocities s k k' v e' e'');
      [assumption.. | congruence | congruence].
Qed.

Section Desynchronisation.
Variable updatePid : Pid → float → ros_Duration → float * Pid.

(** C4.  The command resizes the target-velocity set to its entry
    count.  So when a bound joint at a position [j] at or beyond the
    entry count is named by an entry, the command stops at a write
    [targetVelocities[j']] past the end of the set, which then has as
    many slots as the command has entries ([j'] is the first such
    position, so [j' <= j]); and a tick in the state the command
    stopped in reads [targetVelocities[i]] past the end, at the entry
    count. *)
Theorem velocityCommand_resize_overrun
    (velocities : list JointValue) (s : State) (j : nat)
    (p : JointStatePtr) (jt : JointState) :
  bindings_valid s → length (joints s) ≤ length (pids s) →
  joints s !! j = Some p → joint_states_ (robot s) !! p = Some jt →
  commanded (name (joint_ jt)) velocities →
  length velocities ≤ j →
  ∃ j' s', velocityCommand velocities s = Undefined vTargets j' s' ∧
           length (targetVelocities s') = length velocities ∧
           length velocities ≤ j' ≤ j ∧
           ∃ s'', update updatePid s' =
                  Undefined vTargets (length velocities) s''.
Proof.
  intros Hval Hpids Hp Hjt (v & Hv & Hnm) Hover.
  assert (velocities ≠ []) as Hne by (intros ->; inversion Hv).
  assert (locate (name (joint_ jt)) 0 velocities ≠ (-1)%Z) as Hloc.
  { intros H. apply (proj1 (locate_none _ _ _) H v Hv Hnm). }
  assert (j < length (joints s)) as Hj by (apply lookup_lt_is_Some; eauto).
  destruct (command_loop_overrun velocities _ (located_at_ok s velocities)
              (length (joints s)) 0 (correlated s velocities) j
              (locate (name (joint_ jt)) 0 velocities))
    as (j' & s' & Hrun & Hlen & Hj');
    [ rewrite length_fmap; reflexivity
    | apply correlated_targets_nonempty; exact Hne
    | lia
    | simpl; rewrite length_resize; exact Hover
    | apply (located_lookup _ _ _ _ _ Hp Hjt)
    | exact Hloc
    | ].
  simpl in Hlen, Hj'. rewrite length_resize in Hlen, Hj'.
  rewrite <- velocityCommand_unfold in Hrun by assumption.
  exists j', s'. split; [exact Hrun|]. split; [exact Hlen|].
  split; [exact Hj'|].
  assert (joints s' = joints s) as Hjs.
  { pose proof (velocityCommand_frame joints velocities Hne
                  ltac:(reflexivity) ltac:(reflexivity) s) as H.
    rewrite Hrun in H. exact H. }
  assert (pids s' = pids s) as Hps.
  { pose proof (velocityCommand_frame pids velocities Hne
                  ltac:(reflexivity) ltac:(reflexivity) s) as H.
    rewrite Hrun in H. exact H. }
  assert (robot s' = robot s) as Hrs.
  { pose proof (velocityCommand_frame robot velocities Hne
                  ltac:(reflexivity) ltac:(reflexivity) s) as H.
    rewrite Hrun in H. exact H. }
  rewrite <- Hlen. apply update_short.
  - unfold bindings_valid. rewrite Hjs, Hrs. exact Hval.
  - rewrite Hjs, Hlen. lia.
  - rewrite Hjs, Hps. exact Hpids.
Qed.
End Desynchronisation.

(** ** Initialisation *)

Lemma run_or_else_None {R} (loop : M (option R)) (k : M R) s s' :
  loop s = Done None s' → or_else loop k s = k s'.
Proof. intros H. unfold or_else. rewrite run_bind, H. reflexivity. Qed.

Lemma run_or_else_Some {R} (loop : M (option R)) (k : M R) s s' x :
  loop s = Done (Some x) s' → or_else loop k s = Done x s'.
Proof. intros H. unfold or_else. rewrite run_bind, H. reflexivity. Qed.

Lemma run_or_else_Undefined {R} (loop : M (option R)) (k : M R) s v i s' :
  loop s = Undefined v i s' → or_else loop k s = Undefined v i s'.
Proof. intros H. unfold or_else. rewrite run_bind, H. reflexivity. Qed.

Lemma set_joints_same s : set_joints (joints s) s = s.
Proof. destruct s; reflexivity. Qed.

(** [getJointState] answers with a joint state of the model that carries
    the name asked for. *)
Lemma find_joint_Some nm i js p :
  find_joint nm i js = Some p →
  ∃ j, i ≤ p ∧ js !! (p - i) = Some j ∧ name (joint_ j) = nm.
Proof.
  revert i. induction js as [|j0 js IH]; intros i; simpl; [done|].
  destruct (String.eqb_spec (name (joint_ j0)) nm) as [Heq|Hne].
  - intros [= <-]. exists j0. rewrite Nat.sub_diag. done.
  - intros H. destruct (IH (S i) H) as (j & Hle & Hj & Hnm).
    exists j. split; [lia|]. split; [|exact Hnm].
    replace (p - i) with (S (p - S i)) by lia. exact Hj.
Qed.

Lemma getJointState_Some r nm p :
  getJointState r nm = Some p →
  ∃ j, joint_states_ r !! p = Some j ∧ name (joint_ j) = nm.
Proof.
  intros H. destruct (find_joint_Some _ _ _ _ H) as (j & _ & Hj & Hnm).
  rewrite Nat.sub_0_r in Hj. eauto.
Qed.

(** A list of names with an unresolvable one splits at the first such. *)
Lemma first_unresolved r names :
  (∃ nm, nm ∈ names ∧ getJointState r nm = None) →
  ∃ good ptrs bad post,
    names = good ++ bad :: post ∧
    Forall2 (λ nm p, getJointState r nm = Some p) good ptrs ∧
    getJointState r bad = None.
Proof.
  induction names as [|n names IH]; intros (nm & Hin & Hnone).
  - inversion Hin.
  - destruct (getJointState r n) as [p|] eqn:Hn.
    + destruct IH as (good & ptrs & bad & post & -> & Hgood & Hbad).
      { exists nm. split; [|exact Hnone].
        inversion Hin; subst; [congruence | assumption]. }
      exists (n :: good), (p :: ptrs), bad, post.
      split; [reflexivity|]. split; [constructor; assumption | exact Hbad].
    + exists [], [], n, names. split; [reflexivity|].
      split; [constructor | exact Hn].
Qed.

Section Init.
Variable Pid_init : string → Pid → option Pid.
Variable indeterminate_i : nat → nat.
Variable ns : string.
Variable r : RobotState.

Lemma resolve_step_ok all i nm p s :
  all !! i = Some (TypeString nm) → robot s = r →
  getJointState r nm = Some p →
  resolve ns all i s = Done None (set_joints (joints s ++ [p]) s).
Proof.
  intros Hi Hr Hp. unfold resolve.
  erewrite run_bind_Done by (apply run_vec_at; exact Hi).
  cbv beta iota. rewrite run_bind. simpl. rewrite Hr, Hp. reflexivity.
Qed.

Lemma resolve_step_fail all i nm s :
  all !! i = Some (TypeString nm) → robot s = r →
  getJointState r nm = None →
  resolve ns all i s =
  Done (Some false) (set_rosout (rosout s ++ [JointNotFound nm ns]) s).
Proof.
  intros Hi Hr Hp. unfold resolve.
  erewrite run_bind_Done by (apply run_vec_at; exact Hi).
  cbv beta iota. rewrite run_bind. simpl. rewrite Hr, Hp. reflexivity.
Qed.

Lemma resolve_loop_ok rest ptrs :
  Forall2 (λ nm p, getJointState r nm = Some p) rest ptrs →
  ∀ pre s, robot s = r →
  for_until (seq (length pre) (length rest))
    (resolve ns (pre ++ (TypeString <$> rest))) s
  = Done None (set_joints (joints s ++ ptrs) s).
Proof.
  induction 1 as [|nm p rest ptrs Hp Hrest IH]; intros pre s Hr; simpl.
  - rewrite app_nil_r, set_joints_same. reflexivity.
  - erewrite run_bind_Done
      by (apply (resolve_step_ok _ _ nm p);
          [apply list_lookup_middle; reflexivity | exact Hr | exact Hp]).
    specialize (IH (pre ++ [TypeString nm]) (set_joints (joints s ++ [p]) s) Hr).
    rewrite length_app, Nat.add_1_r, <- (assoc_L (++)) in IH. simpl in IH.
    rewrite <- (assoc_L (++)) in IH. exact IH.
Qed.

Lemma resolve_loop_fail good ptrs bad post :
  Forall2 (λ nm p, getJointState r nm = Some p) good ptrs →
  getJointState r bad = None →
  ∀ pre s, robot s = r →
  for_until (seq (length pre) (length (good ++ bad :: post)))
    (resolve ns (pre ++ (TypeString <$> (good ++ bad :: post)))) s
  = Done (Some false)
      (set_rosout (rosout s ++ [JointNotFound bad ns])
         (set_joints (joints s ++ ptrs) s)).
Proof.
  intros Hgood Hbad.
  induction Hgood as [|nm p good ptrs Hp Hrest IH]; intros pre s Hr; simpl.
  - erewrite run_bind_Done
      by (apply (resolve_step_fail _ _ bad);
          [apply list_lookup_middle; reflexivity | exact Hr | exact Hbad]).
    rewrite app_nil_r, set_joints_same. reflexivity.
  - erewrite run_bind_Done
      by (apply (resolve_step_ok _ _ nm p);
          [apply list_lookup_middle; reflexivity | exact Hr | exact Hp]).
    specialize (IH (pre ++ [TypeString nm]) (set_joints (joints s ++ [p]) s) Hr).
    rewrite length_app, Nat.add_1_r, <- (assoc_L (++)) in IH. simpl in IH.
    rewrite <- (assoc_L (++)) in IH. exact IH.
Qed.

Lemma calibrated_loop rest : ∀ pre s,
  joints s = pre ++ rest →
  Forall (λ p, ∃ j, joint_states_ (robot s) !! p = Some j ∧
                    calibrated_ j = true) rest →
  for_until (seq (length pre) (length rest)) (check_calibrated ns) s
  = Done None s.
Proof.
  induction rest as [|p rest IH]; intros pre s Hjs Hcal; simpl.
  - reflexivity.
  - inversion Hcal as [|? ? (j & Hj & Hc) Hrest]; subst.
    rewrite run_bind. unfold check_calibrated at 1.
    erewrite run_bind_Done
      by (unfold joints_at; apply run_vec_at; rewrite Hjs;
          apply list_lookup_middle; reflexivity).
    erewrite run_bind_Done by (unfold deref; apply run_vec_at; exact Hj).
    rewrite Hc. simpl.
    specialize (IH (pre ++ [p]) s).
    rewrite length_app, Nat.add_1_r, <- (assoc_L (++)) in IH.
    apply IH; assumption.
Qed.

(** One round of the third loop. *)
Lemma setup_pid_step gainsNS s i p j pid :
  joints s !! i = Some p → joint_states_ (robot s) !! p = Some j →
  pids s !! i = Some pid →
  setup_pid Pid_init indeterminate_i ns gainsNS i s =
  match Pid_init (gainsNS +:+ "/" +:+ name (joint_ j)) pid with
  | None =>
      Done (Some false)
        (set_rosout (rosout s ++ [CannotSetupPid (name (joint_ j)) ns]) s)
  | Some pid' =>
      if decide (indeterminate_i i < length (pids s))
      then Done None (set_pids (<[i:=pid']> (pids s)) s)
      else Undefined vPids (indeterminate_i i)
             (set_pids (<[i:=pid']> (pids s)) s)
  end.
Proof.
  intros Hp Hj Hpid. unfold setup_pid.
  erewrite run_bind_Done by (unfold joints_at; apply run_vec_at; exact Hp).
  erewrite run_bind_Done by (unfold deref; apply run_vec_at; exact Hj).
  erewrite run_bind_Done by (unfold pids_at; apply run_vec_at; exact Hpid).
  destruct (Pid_init _ pid) as [pid'|]; [|reflexivity].
  rewrite run_bind. unfold pids_store.
  rewrite decide_True by (apply lookup_lt_is_Some; eauto).
  rewrite run_bind. unfold pids_at, vec_at. simpl pids.
  destruct (decide (indeterminate_i i < length (pids s))) as [Hin|Hout].
  - destruct (lookup_lt_is_Some_2 (<[i:=pid']> (pids s)) (indeterminate_i i))
      as [x Hx]; [rewrite length_insert; exact Hin|].
    rewrite Hx. reflexivity.
  - rewrite (proj2 (lookup_ge_None _ _)) by (rewrite length_insert; lia).
    reflexivity.
Qed.

Lemma setup_pid_loop gainsNS rest : ∀ pre ready s,
  joints s = pre ++ rest → length ready = length pre →
  pids s = ready ++ replicate (length rest) Pid_default →
  Forall (λ p, ∃ j, joint_states_ (robot s) !! p = Some j ∧
                    is_Some (Pid_init (gainsNS +:+ "/" +:+ name (joint_ j))
                                      Pid_default)) rest →
  (∀ i, length pre ≤ i < length pre + length rest →
        indeterminate_i i < length pre + length rest) →
  ∃ loaded, length loaded = length rest ∧
    for_until (seq (length pre) (length rest)) (setup_pid Pid_init indeterminate_i ns gainsNS) s
    = Done None (set_pids (ready ++ loaded) s).
Proof.
  induction rest as [|p rest IH]; intros pre ready s Hjs Hlen Hpids Hgains Hin; simpl.
  - exists []. split; [reflexivity|].
    simpl in Hpids. rewrite <- Hpids, set_pids_same. reflexivity.
  - inversion Hgains as [|? ? (j & Hj & [pid' Hpid']) Hrest]; subst.
    destruct (IH (pre ++ [p]) (ready ++ [pid'])
                (set_pids (ready ++ pid' :: replicate (length rest) Pid_default) s))
      as (loaded & Hll & Hrun).
    + simpl. rewrite Hjs, <- (assoc_L (++)). reflexivity.
    + rewrite !length_app, Hlen. reflexivity.
    + simpl. rewrite <- (assoc_L (++)). reflexivity.
    + exact Hrest.
    + intros i Hi. rewrite length_app in *. simpl in *.
      specialize (Hin i ltac:(lia)). lia.
    + exists (pid' :: loaded). split; [simpl; congruence|].
      rewrite run_bind.
      rewrite (setup_pid_step gainsNS s (length pre) p j Pid_default);
        [ | rewrite Hjs; apply list_lookup_middle; reflexivity
          | exact Hj
          | rewrite Hpids; apply list_lookup_middle; symmetry; exact Hlen ].
      rewrite Hpid'.
      rewrite decide_True
        by (rewrite Hpids, length_app, length_replicate, Hlen; simpl;
            apply Hin; simpl; lia).
      rewrite Hpids, insert_app_r_alt by lia.
      rewrite Hlen, Nat.sub_diag. simpl.
      rewrite length_app, Nat.add_1_r, <- (assoc_L (++)) in Hrun.
      simpl in Hrun. exact Hrun.
Qed.
End Init.

Lemma resize_nil {A} n (d : A) : resize n d [] = replicate n d.
Proof. unfold resize. rewrite take_nil, Nat.sub_0_r. reflexivity. Qed.

Section InitOutcomes.
Variable Pid_init : string → Pid → option Pid.
Variable indeterminate_i : nat → nat.
Variable nodeHandle : NodeHandle.
Variable r : RobotState.

(** The state a successful initialisation of a fresh controller ends
    in. *)
Lemma init_success names ptrs :
  getParam nodeHandle "joints" = Some (TypeArray (TypeString <$> names)) →
  Forall2 (λ nm p, getJointState r nm = Some p) names ptrs →
  Forall (λ p, ∃ j, joint_states_ r !! p = Some j ∧ calibrated_ j = true ∧
                    is_Some (Pid_init (gains_namespace nodeHandle +:+ "/" +:+
                                       name (joint_ j)) Pid_default)) ptrs →
  (∀ i, i < length ptrs → indeterminate_i i < length ptrs) →
  ∃ loaded, length loaded = length ptrs ∧
    init Pid_init indeterminate_i nodeHandle (constructed r) =
    Done true (mkState r ptrs loaded (replicate (length ptrs) 0%float) 0%Z
                       (Some "command") []).
Proof.
  intros Hparam Hres Hok Hin.
  set (s1 := set_joints ptrs (constructed r)).
  set (s2 := set_pids (replicate (length ptrs) Pid_default)
               (set_targetVelocities (replicate (length ptrs) 0%float) s1)).
  destruct (setup_pid_loop Pid_init indeterminate_i (getNamespace nodeHandle)
              (gains_namespace nodeHandle) ptrs [] [] s2)
    as (loaded & Hlen & Hpid);
    [ reflexivity | reflexivity | reflexivity
    | eapply Forall_impl; [exact Hok|]; intros p (j & Hj & _ & Hg); eauto
    | intros i Hi; simpl in *; apply Hin; lia
    | ].
  exists loaded. split; [exact Hlen|].
  unfold init. rewrite Hparam, length_fmap.
  erewrite run_or_else_None
    by (exact (resolve_loop_ok (getNamespace nodeHandle) r names ptrs Hres
                 [] (constructed r) eq_refl)).
  rewrite (run_bind_Done (gets _) _ _ _ _ eq_refl).
  erewrite run_or_else_None.
  2:{ apply (calibrated_loop (getNamespace nodeHandle) ptrs [] s1 eq_refl).
      eapply Forall_impl; [exact Hok|]. intros p (j & Hj & Hc & _). eauto. }
  rewrite (run_bind_Done (modify _) _ _ _ _ eq_refl).
  rewrite (run_bind_Done (modify _) _ _ _ _ eq_refl).
  simpl targetVelocities. simpl pids. rewrite !resize_nil.
  erewrite run_or_else_None by exact Hpid.
  reflexivity.
Qed.

(** The state a fresh controller is left in when a configured name does
    not resolve. *)
Lemma init_unresolved good ptrs bad post :
  getParam nodeHandle "joints"
    = Some (TypeArray (TypeString <$> (good ++ bad :: post))) →
  Forall2 (λ nm p, getJointState r nm = Some p) good ptrs →
  getJointState r bad = None →
  init Pid_init indeterminate_i nodeHandle (constructed r) =
  Done false (mkState r ptrs [] [] 0%Z None
                      [JointNotFound bad (getNamespace nodeHandle)]).
Proof.
  intros Hparam Hgood Hbad.
  unfold init. rewrite Hparam, length_fmap.
  erewrite run_or_else_Some
    by (exact (resolve_loop_fail (getNamespace nodeHandle) r good ptrs bad post
                 Hgood Hbad [] (constructed r) eq_refl)).
  reflexivity.
Qed.
End InitOutcomes.

Section InitClaims.
Variable Pid_init : string → Pid → option Pid.
Variable indeterminate_i : nat → nat.


(** C6, as the code has it.  When the configured joints are the strings
    [names] and one of them does not resolve, the initialisation of a
    fresh controller returns false, and its one log entry reports the
    first name that does not resolve; the names before that one stay
    bound, in order, in [joints]; no target, no PID and no subscription
    is set up. *)
Theorem init_unresolved_name (nodeHandle : NodeHandle) (r : RobotState)
    (names : list string) :
  getParam nodeHandle "joints" = Some (TypeArray (TypeString <$> names)) →
  (∃ nm, nm ∈ names ∧ getJointState r nm = None) →
  ∃ good bad post s',
    names = good ++ bad :: post ∧ getJointState r bad = None ∧
    init Pid_init indeterminate_i nodeHandle (constructed r) = Done false s' ∧
    rosout s' = [JointNotFound bad (getNamespace nodeHandle)] ∧
    Forall2 (λ p nm, getJointState r nm = Some p) (joints s') good ∧
    targetVelocities s' = [] ∧ pids s' = [] ∧ subscriber s' = None.
Proof.
  intros Hparam Hbad.
  destruct (first_unresolved r names Hbad)
    as (good & ptrs & bad & post & -> & Hgood & Hnone).
  exists good, bad, post. eexists.
  split; [reflexivity|]. split; [exact Hnone|].
  split; [exact (init_unresolved Pid_init indeterminate_i nodeHandle r good ptrs bad post
                   Hparam Hgood Hnone)|].
  simpl. split; [reflexivity|]. split; [|done].
  apply Forall2_flip. exact Hgood.
Qed.
End InitClaims.

Section EmptyArm.
Variable updatePid : Pid → float → ros_Duration → float * Pid.
Variable Pid_init : string → Pid → option Pid.
Variable indeterminate_i : nat → nat.

Lemma starting_frame {X} (f : State → X) :
  (∀ l s, f (set_pids l s) = f s) → (∀ t s, f (set_lastTime t s) = f s) →
  preserves f starting.
Proof. intros Hp Ht. unfold starting, reset_pid. frame. Qed.

Lemma update_frame {X} (f : State → X) :
  (∀ l s, f (set_pids l s) = f s) → (∀ t s, f (set_lastTime t s) = f s) →
  (∀ r s, f (set_robot r s) = f s) →
  preserves f (update updatePid).
Proof. intros Hp Ht Hr. unfold update, control. frame. Qed.

Lemma handle_keeps_joints e : preserves joints (handle updatePid e).
Proof.
  destruct e as [| |velocities|r]; simpl.
  - apply starting_frame; reflexivity.
  - apply update_frame; reflexivity.
  - destruct velocities as [|v vs].
    + apply starting_frame; reflexivity.
    + apply velocityCommand_frame; [done | reflexivity..].
  - frame.
Qed.

Lemma reaches_joints s s' : reaches updatePid s s' → joints s' = joints s.
Proof.
  induction 1 as [|e s1 s2 _ IH Hstep]; [reflexivity|].
  pose proof (handle_keeps_joints e s1) as H. rewrite Hstep in H.
  simpl in H. congruence.
Qed.

(** C10.  When the configured joints are an empty array, the
    initialisation of a fresh controller returns true with no joint
    bound and no target; and in every state that starts, ticks, commands
    and changes of the robot state lead to from there, a tick ends
    normally and leaves the robot, so every commanded effort, as it
    was. *)
Theorem init_no_joints (nodeHandle : NodeHandle) (r : RobotState) :
  getParam nodeHandle "joints" = Some (TypeArray []) →
  ∃ s0, init Pid_init indeterminate_i nodeHandle (constructed r) = Done true s0 ∧
        joints s0 = [] ∧ targetVelocities s0 = [] ∧
        ∀ s, reaches updatePid s0 s →
             ∃ s', update updatePid s = Done () s' ∧ robot s' = robot s.
Proof.
  intros Hparam.
  destruct (init_success Pid_init indeterminate_i nodeHandle r [] [] Hparam)
    as (loaded & Hlen & Hrun);
    [constructor | constructor | intros i Hi; simpl in Hi; lia | ].
  eexists. split; [exact Hrun|]. split; [reflexivity|].
  split; [reflexivity|].
  intros s Hreach. apply reaches_joints in Hreach. simpl in Hreach.
  rewrite update_unfold, Hreach. simpl. eexists. split; reflexivity.
Qed.
End EmptyArm.

(** ** The controller on the two-joint arm *)

Import Sample.

(** The bound controller of the sample is what [init] produces. *)
Example sample_init :
  init gains in_range (node J1_J2) (constructed arm) = Done true (bound [0%float; 0%float]).
Proof. vm_compute. reflexivity. Qed.

Lemma bound_ready targets : length targets = 2 → tick_ready (bound targets).
Proof.
  intros H. unfold tick_ready, bindings_valid. simpl. rewrite H.
  repeat split; [repeat constructor; simpl; lia | lia | lia].
Defined.

Lemma bound_joints_NoDup targets : NoDup (joints (bound targets)).
Proof.
  simpl. apply NoDup_cons. split; [|apply NoDup_singleton].
  intros H. apply list_elem_of_singleton in H. discriminate.
Defined.

(** C2.  With [J1; J2] bound and the targets [0; 0], the command with the
    single entry [(J2, 1.5)] resizes the target-velocity set to one slot
    and then stops at the write [targetVelocities[1]] past its end; the
    log has the not-found report for [J1], and with the unit written
    [rad/s] also an incompatible-units report for [J2]. *)
Theorem velocityCommand_J2_only :
  velocityCommand [mkJointValue "J2" radian_per_second 1.5]
                  (bound [0%float; 0%float])
  = Undefined vTargets 1
      (set_rosout [UnableToLocateJoint "J1"]
         (set_targetVelocities [0%float] (bound [0%float; 0%float]))) ∧
  velocityCommand [mkJointValue "J2" "rad/s" 1.5] (bound [0%float; 0%float])
  = Undefined vTargets 1
      (set_rosout [UnableToLocateJoint "J1"; IncompatibleUnits "J2" "rad/s"]
         (set_targetVelocities [0%float] (bound [0%float; 0%float]))).
Proof. split; vm_compute; reflexivity. Qed.

(** C3.  With [J1; J2] bound and the targets [0.5; 0.75], the command
    with the single entry [(J1, 1)] completes and leaves one target for
    two bound joints: the slot of [J2], which no entry names, is gone
    together with its prior target. *)
Theorem velocityCommand_shrinks_targets :
  ∃ s', velocityCommand [mkJointValue "J1" radian_per_second 1]
                        (bound [0.5%float; 0.75%float]) = Done () s' ∧
        joints s' = [0; 1] ∧
        targetVelocities s' = [1%float] ∧
        targetVelocities (bound [0.5%float; 0.75%float]) !! 1 = Some 0.75%float ∧
        targetVelocities s' !! 1 = None.
Proof. eexists. split; [vm_compute; reflexivity|]. repeat split. Qed.

(** C6, as the claim has it, fails: with [J1] resolvable and [J9] not, the
    failed initialisation leaves [J1] bound. *)
Lemma init_partial_binding :
  getJointState arm "J9" = None ∧
  ∃ s', init gains in_range (node (TypeArray [TypeString "J1"; TypeString "J9"]))
             (constructed arm) = Done false s' ∧
        joints s' = [0] ∧ joints s' ≠ [].
Proof.
  split; [reflexivity|]. eexists. split; [vm_compute; reflexivity|].
  split; [reflexivity | discriminate].
Qed.

(** C8, as the claim has it, fails: an entry that names a bound joint after
    an earlier entry for the same joint is never looked at, so its value
    is not written and its unit is not reported. *)
Lemma velocityCommand_later_entry_ignored :
  let later := mkJointValue "J1" "deg" 2 in
  let velocities := [mkJointValue "J1" radian_per_second 1.5; later] in
  later ∈ velocities ∧ unit later ≠ radian_per_second ∧
  getJointState arm (joint_uri later) = Some 0 ∧
  joints (bound [0%float; 0%float]) !! 0 = Some 0 ∧
  ∃ s', velocityCommand velocities (bound [0%float; 0%float]) = Done () s' ∧
        targetVelocities s' = [1.5%float; 0%float] ∧
        targetVelocities s' !! 0 ≠ Some (value later) ∧
        rosout s' = [UnableToLocateJoint "J2"].
Proof.
  split; [right; left|]. split; [discriminate|].
  split; [reflexivity|]. split; [reflexivity|].
  eexists. split; [vm_compute; reflexivity|].
  split; [reflexivity|]. split; [|reflexivity].
  intros H.
  apply (f_equal (λ o, match o with
                       | Some x => PrimFloat.ltb x 1.75
                       | None => false
                       end)) in H.
  vm_compute in H. discriminate.
Qed.

(** ** The theorems at work on the sample *)

Lemma update_tick_witness :
  ∃ s', update P_law (bound [0%float; 0%float]) = Done () s' ∧
        lastTime s' = 1000%Z ∧
        joint_states_ (robot s') !! 0
        = Some (mkJointState (mkJoint "J1") 0.25 (-0.5) true).
Proof.
  destruct (update_tick P_law (bound [0%float; 0%float])
              (bound_ready [0%float; 0%float] eq_refl))
    as (s' & Hrun & Hlast & _ & _ & _ & _ & Honce).
  exists s'. split; [exact Hrun|]. split; [exact Hlast|].
  apply (Honce (bound_joints_NoDup _)
               0 0 (mkJointState (mkJoint "J1") 0.25 0 true) 0%float gain2);
    reflexivity.
Defined.

Lemma velocityCommand_resize_overrun_witness :
  ∃ j' s', velocityCommand [mkJointValue "J2" radian_per_second 1.5]
                           (bound [0%float; 0%float])
           = Undefined vTargets j' s' ∧
           length (targetVelocities s') = 1 ∧ 1 ≤ j' ≤ 1 ∧
           ∃ s'', update P_law s' = Undefined vTargets 1 s''.
Proof.
  apply (velocityCommand_resize_overrun P_law
           [mkJointValue "J2" radian_per_second 1.5] (bound [0%float; 0%float])
           1 1 (mkJointState (mkJoint "J2") 0.5 10 true)).
  - repeat constructor; simpl; lia.
  - simpl. lia.
  - reflexivity.
  - reflexivity.
  - eexists. split; [left | reflexivity].
  - simpl. lia.
Defined.

Lemma velocityCommand_incompatible_unit_witness :
  let velocities := [mkJointValue "J2" radian_per_second 1.5;
                     mkJointValue "J1" "deg" 1;
                     mkJointValue "J1" radian_per_second 9] in
  let s := bound [0%float; 0%float] in
  (length (joints s) ≤ length velocities →
   ∃ s', velocityCommand velocities s = Done () s') ∧
  (∀ s', velocityCommand velocities s = Done () s' →
         targetVelocities s' !! 0 = Some 1%float ∧
         ∃ lg, rosout s' = rosout s ++ lg ∧ IncompatibleUnits "J1" "deg" ∈ lg) ∧
  (0 < length velocities →
   targetVelocities (final (velocityCommand velocities s)) !! 0 = Some 1%float ∧
   ∃ lg, rosout (final (velocityCommand velocities s)) = rosout s ++ lg ∧
         IncompatibleUnits "J1" "deg" ∈ lg) ∧
  (∀ k' e' e'', 1 < k' → velocities !! k' = Some e' →
                joint_uri e' = "J1" → joint_uri e'' = "J1" →
                velocityCommand (<[k':=e'']> velocities) s
                = velocityCommand velocities s).
Proof.
  apply (velocityCommand_incompatible_unit
           [mkJointValue "J2" radian_per_second 1.5; mkJointValue "J1" "deg" 1;
            mkJointValue "J1" radian_per_second 9]
           (bound [0%float; 0%float]) 0 0
           (mkJointState (mkJoint "J1") 0.25 0 true) 1
           (mkJointValue "J1" "deg" 1)).
  - repeat constructor; simpl; lia.
  - reflexivity.
  - reflexivity.
  - split; [reflexivity|]. split; [reflexivity|].
    intros [|k'] v' Hk' Hv'; [|lia].
    simpl in Hv'. injection Hv' as <-. simpl. discriminate.
  - simpl. discriminate.
Defined.

Lemma velocityCommand_nonempty_frame_witness :
  let velocities := [mkJointValue "J2" radian_per_second 1.5] in
  let s := bound [0%float; 0%float] in
  pids (final (velocityCommand velocities s)) = pids s ∧
  lastTime (final (velocityCommand velocities s)) = lastTime s.
Proof.
  apply (velocityCommand_nonempty_frame
           [mkJointValue "J2" radian_per_second 1.5] (bound [0%float; 0%float])).
  discriminate.
Defined.

Lemma init_unresolved_name_witness :
  ∃ good bad post s',
    ["J1"; "J9"] = good ++ bad :: post ∧ getJointState arm bad = None ∧
    init gains in_range (node (TypeArray [TypeString "J1"; TypeString "J9"]))
         (constructed arm) = Done false s' ∧
    rosout s' = [JointNotFound bad "/arm"] ∧
    Forall2 (λ p nm, getJointState arm nm = Some p) (joints s') good ∧
    targetVelocities s' = [] ∧ pids s' = [] ∧ subscriber s' = None.
Proof.
  apply (init_unresolved_name gains in_range
           (node (TypeArray [TypeString "J1"; TypeString "J9"])) arm
           ["J1"; "J9"]).
  - reflexivity.
  - exists "J9". split; [right; left | reflexivity].
Defined.

Lemma init_no_joints_witness :
  ∃ s0, init gains in_range (node (TypeArray [])) (constructed arm) = Done true s0 ∧
        joints s0 = [] ∧ targetVelocities s0 = [] ∧
        ∀ s, reaches P_law s0 s →
             ∃ s', update P_law s = Done () s' ∧ robot s' = robot s.
Proof.
  apply (init_no_joints P_law gains in_range (node (TypeArray [])) arm).
  reflexivity.
Defined.

(** * Further properties of the controller *)

(** ** Every way [init] can end *)

Lemma getJointState_valid r nm p :
  getJointState r nm = Some p → p < length (joint_states_ r).
Proof.
  intros H. destruct (getJointState_Some _ _ _ H) as (j & Hj & _).
  eapply lookup_lt_Some. exact Hj.
Qed.

Section InitLoops.
Variable Pid_init : string → Pid → option Pid.
Variable indeterminate_i : nat → nat.
Variable ns : string.
Variable r : RobotState.

Lemma resolve_step_not_string all i x s :
  all !! i = Some x → not_string x →
  resolve ns all i s =
  Done (Some false) (set_rosout (rosout s ++ [JointNamesNotStrings ns]) s).
Proof.
  intros Hi Hx. unfold resolve.
  erewrite run_bind_Done by (apply run_vec_at; exact Hi).
  destruct x; first [done | reflexivity].
Qed.

(** The first loop binds the names up to the first element that is not a
    string or does not resolve, and stops there with one report. *)
Lemma resolve_loop_cases all rest : ∀ pre s,
  all = pre ++ rest → robot s = r →
  ∃ ptrs,
    ((∃ names, rest = TypeString <$> names ∧
               Forall2 (λ nm p, getJointState r nm = Some p) names ptrs) ∧
     for_until (seq (length pre) (length rest)) (resolve ns all) s
     = Done None (set_joints (joints s ++ ptrs) s))
    ∨ (∃ e, for_until (seq (length pre) (length rest)) (resolve ns all) s
            = Done (Some false)
                (set_rosout (rosout s ++ [e]) (set_joints (joints s ++ ptrs) s))).
Proof.
  induction rest as [|x rest IH]; intros pre s Hall Hr.
  - exists []. left. split; [exists []; split; [reflexivity | constructor]|].
    simpl. rewrite app_nil_r, set_joints_same. reflexivity.
  - assert (all !! length pre = Some x) as Hx
      by (rewrite Hall; apply list_lookup_middle; reflexivity).
    assert (not_string x →
      ∃ e, for_until (seq (length pre) (length (x :: rest))) (resolve ns all) s
           = Done (Some false)
               (set_rosout (rosout s ++ [e]) (set_joints (joints s ++ []) s)))
      as Hbad.
    { intros Hns. eexists. simpl.
      erewrite run_bind_Done by (eapply resolve_step_not_string; eassumption).
      rewrite app_nil_r, set_joints_same. reflexivity. }
    destruct x as [| | | |nm| | | |];
      try (exists []; right; apply Hbad; exact I).
    clear Hbad. destruct (getJointState r nm) as [p|] eqn:Hp.
    + destruct (IH (pre ++ [TypeString nm]) (set_joints (joints s ++ [p]) s))
        as [ptrs Hcases]; [rewrite Hall, <- (assoc_L (++)); reflexivity | exact Hr |].
      rewrite length_app, Nat.add_1_r in Hcases. simpl joints in Hcases.
      rewrite <- (assoc_L (++)) in Hcases. simpl in Hcases.
      exists (p :: ptrs). simpl.
      erewrite run_bind_Done by (apply (resolve_step_ok ns r _ _ nm p); eassumption).
      destruct Hcases as [[(names & -> & Hres) Hrun]|[e Hrun]].
      * left. split; [|exact Hrun].
        exists (nm :: names). split; [reflexivity | constructor; assumption].
      * right. exists e. exact Hrun.
    + exists []. right. eexists. simpl.
      erewrite run_bind_Done by (apply (resolve_step_fail ns r _ _ nm); eassumption).
      rewrite app_nil_r, set_joints_same. reflexivity.
Qed.

(** The second loop passes when every bound joint is calibrated, and
    otherwise stops at the first that is not, with one report. *)
Lemma calibrated_loop_cases rest : ∀ pre s,
  joints s = pre ++ rest →
  Forall (λ p, p < length (joint_states_ (robot s))) rest →
  (Forall (calibrated_at (robot s)) rest ∧
   for_until (seq (length pre) (length rest)) (check_calibrated ns) s
   = Done None s)
  ∨ (∃ good p post j,
       rest = good ++ p :: post ∧ Forall (calibrated_at (robot s)) good ∧
       joint_states_ (robot s) !! p = Some j ∧ calibrated_ j = false ∧
       for_until (seq (length pre) (length rest)) (check_calibrated ns) s
       = Done (Some false)
           (set_rosout (rosout s ++ [JointNotCalibrated (name (joint_ j)) ns]) s)).
Proof.
  induction rest as [|p rest IH]; intros pre s Hjs Hval.
  - left. split; [constructor | reflexivity].
  - inversion Hval as [|? ? Hp Hrest]; subst.
    destruct (lookup_lt_is_Some_2 _ p Hp) as [j Hj].
    assert (for_until (seq (length pre) (length (p :: rest)))
              (check_calibrated ns) s
            = if calibrated_ j
              then for_until (seq (S (length pre)) (length rest))
                     (check_calibrated ns) s
              else Done (Some false)
                     (set_rosout
                        (rosout s ++ [JointNotCalibrated (name (joint_ j)) ns]) s))
      as Hstep.
    { simpl. rewrite run_bind. unfold check_calibrated at 1.
      erewrite run_bind_Done
        by (unfold joints_at; apply run_vec_at; rewrite Hjs;
            apply list_lookup_middle; reflexivity).
      erewrite run_bind_Done by (unfold deref; apply run_vec_at; exact Hj).
      destruct (calibrated_ j); reflexivity. }
    rewrite Hstep. clear Hstep.
    destruct (calibrated_ j) eqn:Hc.
    + destruct (IH (pre ++ [p]) s) as [[Hall Hrun]|Hstop];
        [rewrite Hjs, <- (assoc_L (++)); reflexivity | exact Hrest | |];
        rewrite length_app, Nat.add_1_r in *.
      * left. split; [|exact Hrun]. constructor; [|exact Hall].
        exists j. split; assumption.
      * destruct Hstop as (good & q & post & jq & -> & Hgood & Hq & Hcq & Hrun).
        right. exists (p :: good), q, post, jq.
        split; [reflexivity|]. split; [|auto].
        constructor; [|exact Hgood]. exists j. split; assumption.
    + right. exists [], p, rest, j. split; [reflexivity|].
      split; [constructor|]. split; [exact Hj|]. split; [exact Hc | reflexivity].
Qed.

(** The third loop loads the gains of every joint into the fresh PIDs
    and reads them back.  It runs to its end when the gains of every
    joint load and every read-back stays inside [pids]; otherwise it
    stops at the first joint [p] at which one of the two goes wrong: with
    one report when the gains of [p] do not load, and at the access
    [pids[i]] past the end when they load and the read-back leaves
    [pids]. *)
Lemma setup_pid_loop_cases gainsNS rest : ∀ pre ready s,
  joints s = pre ++ rest → length ready = length pre →
  pids s = ready ++ replicate (length rest) Pid_default →
  Forall (λ p, p < length (joint_states_ (robot s))) rest →
  (∃ loaded,
     Forall2 (loaded_from Pid_init gainsNS (robot s)) rest loaded ∧
     (∀ i, length pre ≤ i < length pre + length rest →
           indeterminate_i i < length pre + length rest) ∧
     for_until (seq (length pre) (length rest))
       (setup_pid Pid_init indeterminate_i ns gainsNS) s
     = Done None (set_pids (ready ++ loaded) s))
  ∨ (∃ good loaded p post j,
       rest = good ++ p :: post ∧
       Forall2 (loaded_from Pid_init gainsNS (robot s)) good loaded ∧
       (∀ i, length pre ≤ i < length pre + length good →
             indeterminate_i i < length pre + length rest) ∧
       joint_states_ (robot s) !! p = Some j ∧
       match Pid_init (gainsNS +:+ "/" +:+ name (joint_ j)) Pid_default with
       | None =>
           for_until (seq (length pre) (length rest))
             (setup_pid Pid_init indeterminate_i ns gainsNS) s
           = Done (Some false)
               (set_rosout (rosout s ++ [CannotSetupPid (name (joint_ j)) ns])
                  (set_pids (ready ++ loaded ++
                             replicate (S (length post)) Pid_default) s))
       | Some pid' =>
           length pre + length rest
             ≤ indeterminate_i (length pre + length good) ∧
           for_until (seq (length pre) (length rest))
             (setup_pid Pid_init indeterminate_i ns gainsNS) s
           = Undefined vPids (indeterminate_i (length pre + length good))
               (set_pids (ready ++ loaded ++
                          pid' :: replicate (length post) Pid_default) s)
       end).
Proof.
  induction rest as [|p rest IH]; intros pre ready s Hjs Hlen Hpids Hval.
  - left. exists []. split; [constructor|]. split; [intros i Hi; simpl in Hi; lia|].
    simpl in *. rewrite <- Hpids, set_pids_same. reflexivity.
  - inversion Hval as [|? ? Hp Hrest]; subst.
    destruct (lookup_lt_is_Some_2 _ p Hp) as [j Hj].
    assert (for_until (seq (length pre) (length (p :: rest)))
              (setup_pid Pid_init indeterminate_i ns gainsNS) s
            = match Pid_init (gainsNS +:+ "/" +:+ name (joint_ j)) Pid_default with
              | Some pid' =>
                  if decide (indeterminate_i (length pre)
                             < length pre + length (p :: rest))
                  then for_until (seq (S (length pre)) (length rest))
                         (setup_pid Pid_init indeterminate_i ns gainsNS)
                         (set_pids (ready ++ pid' ::
                                    replicate (length rest) Pid_default) s)
                  else Undefined vPids (indeterminate_i (length pre))
                         (set_pids (ready ++ pid' ::
                                    replicate (length rest) Pid_default) s)
              | None =>
                  Done (Some false)
                    (set_rosout (rosout s ++ [CannotSetupPid (name (joint_ j)) ns]) s)
              end) as Hstep.
    { simpl for_until. simpl seq. simpl for_until. rewrite run_bind.
      rewrite (setup_pid_step Pid_init indeterminate_i ns gainsNS s
                 (length pre) p j Pid_default);
        [ | rewrite Hjs; apply list_lookup_middle; reflexivity
          | exact Hj
          | rewrite Hpids; apply list_lookup_middle; symmetry; exact Hlen ].
      destruct (Pid_init _ Pid_default) as [pid'|]; [|reflexivity].
      rewrite Hpids, insert_app_r_alt by lia.
      rewrite Hlen, Nat.sub_diag. simpl insert.
      rewrite length_app, length_replicate, Hlen.
      destruct (decide _); reflexivity. }
    rewrite Hstep. clear Hstep.
    destruct (Pid_init (gainsNS +:+ "/" +:+ name (joint_ j)) Pid_default)
      as [pid'|] eqn:Hinit.
    + destruct (decide (indeterminate_i (length pre)
                        < length pre + length (p :: rest))) as [Hin|Hout].
      * destruct (IH (pre ++ [p]) (ready ++ [pid'])
                    (set_pids (ready ++ pid' :: replicate (length rest) Pid_default) s))
          as [(loaded & Hload & Hrange & Hrun)|Hstop].
        -- simpl. rewrite Hjs, <- (assoc_L (++)). reflexivity.
        -- rewrite !length_app, Hlen. reflexivity.
        -- simpl. rewrite <- (assoc_L (++)). reflexivity.
        -- exact Hrest.
        -- left. exists (pid' :: loaded). split.
           { constructor; [|exact Hload]. exists j. split; assumption. }
           rewrite (length_app pre [p]), Nat.add_1_r in Hrange, Hrun.
           rewrite <- (assoc_L (++)) in Hrun.
           split; [|exact Hrun].
           intros i Hi. simpl in *.
           destruct (decide (i = length pre)) as [->|Hne]; [lia|].
           specialize (Hrange i ltac:(lia)). lia.
        -- destruct Hstop
             as (good & loaded & q & post & jq & -> & Hload & Hrange & Hq & Hrun).
           right. exists (p :: good), (pid' :: loaded), q, post, jq.
           split; [reflexivity|]. split.
           { constructor; [|exact Hload]. exists j. split; assumption. }
           rewrite (length_app pre [p]), Nat.add_1_r in Hrange, Hrun.
           split.
           { intros i Hi. simpl in *.
             destruct (decide (i = length pre)) as [->|Hne]; [lia|].
             specialize (Hrange i ltac:(lia)). lia. }
           split; [exact Hq|].
           simpl in Hq, Hrun.
           destruct (Pid_init (gainsNS +:+ "/" +:+ name (joint_ jq)) Pid_default).
           ++ rewrite <- (assoc_L (++)) in Hrun. simpl length.
              rewrite <- !Nat.add_succ_comm. exact Hrun.
           ++ rewrite <- (assoc_L (++)) in Hrun. exact Hrun.
      * right. exists [], [], p, rest, j. split; [reflexivity|].
        split; [constructor|]. split; [intros i Hi; simpl in Hi; lia|].
        split; [exact Hj|]. rewrite Hinit.
        simpl in *. rewrite Nat.add_0_r. split; [lia|]. reflexivity.
    + right. exists [], [], p, rest, j. split; [reflexivity|].
      split; [constructor|]. split; [intros i Hi; simpl in Hi; lia|].
      split; [exact Hj|]. rewrite Hinit.
      simpl in *. rewrite <- Hpids, set_pids_same. reflexivity.
Qed.
End InitLoops.

Section InitFresh.
Variable Pid_init : string → Pid → option Pid.
Variable indeterminate_i : nat → nat.
Variable nodeHandle : NodeHandle.
Variable r : RobotState.

Lemma resolved_valid names ptrs :
  Forall2 (λ nm p, getJointState r nm = Some p) names ptrs →
  Forall (λ p, p < length (joint_states_ r)) ptrs.
Proof.
  induction 1 as [|nm p names ptrs Hp _ IH]; constructor; [|exact IH].
  eapply getJointState_valid. exact Hp.
Qed.

(** What [init] does once the configured names have resolved to [ptrs]:
    the rest of the function, on the state the first loop leaves. *)
Lemma init_resolved names ptrs :
  getParam nodeHandle "joints" = Some (TypeArray (TypeString <$> names)) →
  Forall2 (λ nm p, getJointState r nm = Some p) names ptrs →
  init Pid_init indeterminate_i nodeHandle (constructed r) =
  or_else (for_until (seq 0 (length ptrs))
             (check_calibrated (getNamespace nodeHandle))) (
    modify (λ s, set_targetVelocities
                   (resize (length (joints s)) 0%float (targetVelocities s)) s);;
    modify (λ s, set_pids (resize (length (joints s)) Pid_default (pids s)) s);;
    or_else (for_until (seq 0 (length ptrs))
               (setup_pid Pid_init indeterminate_i (getNamespace nodeHandle)
                  (gains_namespace nodeHandle))) (
      modify (set_subscriber (Some "command"));;
      mret true))
    (set_joints ptrs (constructed r)).
Proof.
  intros Hparam Hres. unfold init. rewrite Hparam, length_fmap.
  erewrite run_or_else_None
    by (exact (resolve_loop_ok (getNamespace nodeHandle) r names ptrs Hres
                 [] (constructed r) eq_refl)).
  rewrite (run_bind_Done (gets _) _ _ _ _ eq_refl). reflexivity.
Qed.

(** What [init] does once the names have resolved to calibrated joints:
    the third loop and the subscription, on a PID and a zero target per
    joint. *)
Lemma init_calibrated names ptrs :
  getParam nodeHandle "joints" = Some (TypeArray (TypeString <$> names)) →
  Forall2 (λ nm p, getJointState r nm = Some p) names ptrs →
  Forall (calibrated_at r) ptrs →
  init Pid_init indeterminate_i nodeHandle (constructed r) =
  or_else (for_until (seq 0 (length ptrs))
             (setup_pid Pid_init indeterminate_i (getNamespace nodeHandle)
                (gains_namespace nodeHandle))) (
    modify (set_subscriber (Some "command"));;
    mret true)
    (mkState r ptrs (replicate (length ptrs) Pid_default)
             (replicate (length ptrs) 0%float) 0%Z None []).
Proof.
  intros Hparam Hres Hcal. rewrite (init_resolved names ptrs Hparam Hres).
  erewrite run_or_else_None
    by (exact (calibrated_loop (getNamespace nodeHandle) ptrs []
                 (set_joints ptrs (constructed r)) eq_refl Hcal)).
  rewrite (run_bind_Done (modify _) _ _ _ _ eq_refl).
  rewrite (run_bind_Done (modify _) _ _ _ _ eq_refl).
  simpl targetVelocities. simpl pids. simpl joints. rewrite !resize_nil.
  reflexivity.
Qed.

(** The third loop of [init] on the state the first two leave. *)
Lemma init_setup_pid_cases ptrs :
  Forall (λ p, p < length (joint_states_ r)) ptrs →
  let s2 := mkState r ptrs (replicate (length ptrs) Pid_default)
                    (replicate (length ptrs) 0%float) 0%Z None [] in
  let loop := for_until (seq 0 (length ptrs))
                (setup_pid Pid_init indeterminate_i (getNamespace nodeHandle)
                   (gains_namespace nodeHandle)) in
  (∃ loaded,
     Forall2 (loaded_from Pid_init (gains_namespace nodeHandle) r) ptrs loaded ∧
     (∀ i, i < length ptrs → indeterminate_i i < length ptrs) ∧
     loop s2 = Done None (set_pids loaded s2))
  ∨ (∃ good loaded p post j,
       ptrs = good ++ p :: post ∧
       Forall2 (loaded_from Pid_init (gains_namespace nodeHandle) r) good loaded ∧
       (∀ i, i < length good → indeterminate_i i < length ptrs) ∧
       joint_states_ r !! p = Some j ∧
       match Pid_init (gains_namespace nodeHandle +:+ "/" +:+ name (joint_ j))
                      Pid_default with
       | None =>
           loop s2 =
           Done (Some false)
             (set_rosout [CannotSetupPid (name (joint_ j)) (getNamespace nodeHandle)]
                (set_pids (loaded ++ replicate (S (length post)) Pid_default) s2))
       | Some pid' =>
           length ptrs ≤ indeterminate_i (length good) ∧
           loop s2 =
           Undefined vPids (indeterminate_i (length good))
             (set_pids (loaded ++ pid' :: replicate (length post) Pid_default) s2)
       end).
Proof.
  intros Hval s2 loop.
  destruct (setup_pid_loop_cases Pid_init indeterminate_i (getNamespace nodeHandle)
              (gains_namespace nodeHandle) ptrs [] [] s2 eq_refl eq_refl eq_refl Hval)
    as [(loaded & Hload & Hrange & Hrun)
       |(good & loaded & p & post & j & Hsplit & Hload & Hrange & Hj & Hrun)].
  - left. exists loaded. split; [exact Hload|].
    split; [intros i Hi; apply (Hrange i); simpl; lia | exact Hrun].
  - right. exists good, loaded, p, post, j.
    split; [exact Hsplit|]. split; [exact Hload|].
    split; [intros i Hi; apply (Hrange i); simpl; lia|].
    split; [exact Hj | exact Hrun].
Qed.

(** A fresh controller is initialised either all the way, or up to one
    reported error, or up to a read-back of the gains past the end of
    [pids]. *)
Lemma init_fresh_cases :
  (∃ names ptrs loaded,
     getParam nodeHandle "joints" = Some (TypeArray (TypeString <$> names)) ∧
     Forall2 (λ nm p, getJointState r nm = Some p) names ptrs ∧
     Forall (calibrated_at r) ptrs ∧
     Forall2 (loaded_from Pid_init (gains_namespace nodeHandle) r) ptrs loaded ∧
     (∀ i, i < length ptrs → indeterminate_i i < length ptrs) ∧
     init Pid_init indeterminate_i nodeHandle (constructed r) =
     Done true (mkState r ptrs loaded (replicate (length ptrs) 0%float) 0%Z
                        (Some "command") []))
  ∨ (∃ e js ps tv,
       init Pid_init indeterminate_i nodeHandle (constructed r) =
       Done false (mkState r js ps tv 0%Z None [e]))
  ∨ (∃ names ptrs k ps,
       getParam nodeHandle "joints" = Some (TypeArray (TypeString <$> names)) ∧
       Forall2 (λ nm p, getJointState r nm = Some p) names ptrs ∧
       Forall (calibrated_at r) ptrs ∧
       k < length ptrs ∧ length ps = length ptrs ∧
       (∀ i, i < k → indeterminate_i i < length ptrs) ∧
       length ptrs ≤ indeterminate_i k ∧
       init Pid_init indeterminate_i nodeHandle (constructed r) =
       Undefined vPids (indeterminate_i k)
         (mkState r ptrs ps (replicate (length ptrs) 0%float) 0%Z None [])).
Proof.
  destruct (getParam nodeHandle "joints") as [x|] eqn:Hparam.
  2:{ right. left. unfold init. rewrite Hparam. eexists _, _, _, _. reflexivity. }
  destruct x as [| | | | | | |all|];
    try (right; left; unfold init; rewrite Hparam; eexists _, _, _, _; reflexivity).
  destruct (resolve_loop_cases (getNamespace nodeHandle) r all all []
              (constructed r) eq_refl eq_refl)
    as [ptrs [[(names & -> & Hres) _]|[e Hrun]]].
  2:{ right. left. unfold init. rewrite Hparam.
      erewrite run_or_else_Some by exact Hrun. eexists _, _, _, _. reflexivity. }
  pose proof (resolved_valid names ptrs Hres) as Hval.
  destruct (calibrated_loop_cases (getNamespace nodeHandle) ptrs []
              (set_joints ptrs (constructed r)) eq_refl Hval)
    as [[Hcal _]|(good & p & post & j & _ & _ & _ & _ & Hrun)].
  2:{ right. left. rewrite (init_resolved names ptrs Hparam Hres).
      erewrite run_or_else_Some by exact Hrun.
      eexists _, _, _, _. reflexivity. }
  rewrite (init_calibrated names ptrs Hparam Hres Hcal).
  destruct (init_setup_pid_cases ptrs Hval)
    as [(loaded & Hload & Hrange & Hrun3)
       |(good & loaded & p & post & j & Hsplit & Hload & Hrange & Hj & Hrun3)].
  - left. exists names, ptrs, loaded.
    split; [reflexivity|]. split; [exact Hres|]. split; [exact Hcal|].
    split; [exact Hload|]. split; [exact Hrange|].
    erewrite run_or_else_None by exact Hrun3. reflexivity.
  - right.
    destruct (Pid_init (gains_namespace nodeHandle +:+ "/" +:+ name (joint_ j))
                       Pid_default) as [pid'|].
    + right. destruct Hrun3 as [Hout Hrun3].
      exists names, ptrs, (length good),
             (loaded ++ pid' :: replicate (length post) Pid_default).
      split; [reflexivity|]. split; [exact Hres|]. split; [exact Hcal|].
      pose proof (Forall2_length _ _ _ Hload) as Hl.
      split; [rewrite Hsplit, length_app; simpl; lia|].
      split; [rewrite Hsplit, !length_app; simpl; rewrite length_replicate; lia|].
      split; [exact Hrange|]. split; [exact Hout|].
      erewrite run_or_else_Undefined by exact Hrun3. reflexivity.
    + left. erewrite run_or_else_Some by exact Hrun3.
      eexists _, _, _, _. reflexivity.
Qed.
End InitFresh.

Section InitProperties.
Variable Pid_init : string → Pid → option Pid.
Variable indeterminate_i : nat → nat.

(** Names that all resolve to calibrated joints resolve to a list of
    joint states, position by position. *)
Lemma resolve_all (r : RobotState) (names : list string) :
  (∀ nm, nm ∈ names →
     ∃ p j, getJointState r nm = Some p ∧ joint_states_ r !! p = Some j ∧
            calibrated_ j = true) →
  ∃ ptrs, Forall2 (λ nm p, getJointState r nm = Some p ∧
                     ∃ j, joint_states_ r !! p = Some j ∧
                          name (joint_ j) = nm ∧ calibrated_ j = true)
                  names ptrs.
Proof.
  intros Hres. induction names as [|nm rest IH].
  - exists []. constructor.
  - destruct (Hres nm ltac:(left)) as (p & j & Hp & Hj & Hc).
    destruct IH as [ptrs Hptrs].
    { intros nm' Hin. apply Hres. right. exact Hin. }
    exists (p :: ptrs). constructor; [|exact Hptrs].
    split; [exact Hp|]. exists j. split; [exact Hj|]. split; [|exact Hc].
    destruct (getJointState_Some _ _ _ Hp) as (j' & Hj' & Hnm). congruence.
Qed.

(** C7.  Let the configured joints be the strings [names], every name
    resolve to a calibrated joint state of the robot model and the gains
    of every joint load.  The third loop of [init] reads the gains of
    joint [k] back from [pids] at the index the uninitialised local [i]
    holds.  When that index is past the end of [pids] for a joint [k],
    the first such, [init] on a fresh controller does not return true: it
    stops at the read-back [pids[i]] past the end, with the names bound
    in their order and the targets zeroed, and before the command topic
    is subscribed. *)
Theorem init_read_back_past_end (nodeHandle : NodeHandle) (r : RobotState)
    (names : list string) (k : nat) :
  getParam nodeHandle "joints" = Some (TypeArray (TypeString <$> names)) →
  (∀ nm, nm ∈ names →
     ∃ p j, getJointState r nm = Some p ∧ joint_states_ r !! p = Some j ∧
            calibrated_ j = true) →
  (∀ nm, nm ∈ names →
     is_Some (Pid_init (gains_namespace nodeHandle +:+ "/" +:+ nm) Pid_default)) →
  k < length names →
  (∀ i, i < k → indeterminate_i i < length names) →
  length names ≤ indeterminate_i k →
  ∃ s', init Pid_init indeterminate_i nodeHandle (constructed r)
        = Undefined vPids (indeterminate_i k) s' ∧
        Forall2 (λ p nm, getJointState r nm = Some p ∧
                         ∃ j, joint_states_ r !! p = Some j ∧
                              name (joint_ j) = nm)
                (joints s') names ∧
        targetVelocities s' = replicate (length names) 0%float ∧
        length (pids s') = length names ∧
        robot s' = r ∧ rosout s' = [] ∧ subscriber s' = None.
Proof.
  intros Hparam Hres Hgains Hk Hbefore Hout.
  destruct (resolve_all r names Hres) as [ptrs Hptrs].
  pose proof (Forall2_length _ _ _ Hptrs) as Hl.
  assert (Forall2 (λ nm p, getJointState r nm = Some p) names ptrs) as Hres'
    by (eapply Forall2_impl; [exact Hptrs|]; intros nm p [Hp _]; exact Hp).
  assert (Forall (calibrated_at r) ptrs) as Hcal.
  { clear -Hptrs. induction Hptrs as [|nm p names ptrs (_ & j & Hj & _ & Hc) _ IH];
      constructor; [exists j; split; assumption | exact IH]. }
  rewrite (init_calibrated Pid_init indeterminate_i nodeHandle r names ptrs
             Hparam Hres' Hcal).
  destruct (init_setup_pid_cases Pid_init indeterminate_i nodeHandle r ptrs
              (resolved_valid r names ptrs Hres'))
    as [(loaded & _ & Hrange & _)
       |(good & loaded & p & post & j & Hsplit & Hload & Hrange & Hj & Hrun)].
  { specialize (Hrange k ltac:(lia)). lia. }
  assert (is_Some (Pid_init (gains_namespace nodeHandle +:+ "/" +:+ name (joint_ j))
                            Pid_default)) as [pid' Hpid'].
  { assert (p ∈ ptrs) as Hin
      by (rewrite Hsplit; apply elem_of_app; right; left).
    clear -Hptrs Hin Hj Hgains.
    induction Hptrs as [|nm q names ptrs (_ & jq & Hjq & Hnm & _) _ IH].
    - inversion Hin.
    - apply elem_of_cons in Hin as [->|Hin].
      + assert (jq = j) as -> by congruence. rewrite Hnm. apply Hgains. left.
      + apply IH; [|exact Hin]. intros nm' Hnm'. apply Hgains. right. exact Hnm'. }
  rewrite Hpid' in Hrun. destruct Hrun as [Hover Hrun].
  pose proof (Forall2_length _ _ _ Hload) as Hll.
  assert (length good = k) as Hgk.
  { destruct (Nat.lt_trichotomy (length good) k) as [Hlt|[Heq|Hgt]].
    - specialize (Hbefore _ Hlt). lia.
    - exact Heq.
    - specialize (Hrange _ Hgt). lia. }
  rewrite Hgk in Hrun.
  erewrite run_or_else_Undefined by exact Hrun.
  eexists. split; [reflexivity|]. simpl.
  split.
  { apply Forall2_flip. eapply Forall2_impl; [exact Hptrs|].
    intros nm q (Hq & jq & Hjq & Hnm & _). eauto. }
  split; [rewrite Hl; reflexivity|].
  split; [|done].
  rewrite length_app. simpl. rewrite length_replicate, <- Hll, Hl, Hsplit, length_app.
  simpl. reflexivity.
Qed.


(** X2.  When the initialisation of a fresh controller returns true, the
    configured joints were an array of strings, [joints] binds these
    names in order to calibrated joint states of the robot, every PID is
    a default-constructed one with the gains of its joint loaded, every
    target is zero, and the state is ready for ticks: one target and one
    PID per bound joint, every pointer valid. *)
Theorem init_true_is_ready (nodeHandle : NodeHandle) (r : RobotState)
    (s' : State) :
  init Pid_init indeterminate_i nodeHandle (constructed r) = Done true s' →
  ∃ names,
    getParam nodeHandle "joints" = Some (TypeArray (TypeString <$> names)) ∧
    Forall2 (bound_to r) (joints s') names ∧
    Forall (calibrated_at r) (joints s') ∧
    Forall2 (loaded_from Pid_init (gains_namespace nodeHandle) r)
            (joints s') (pids s') ∧
    targetVelocities s' = replicate (length names) 0%float ∧
    robot s' = r ∧ tick_ready s'.
Proof.
  intros Hrun.
  destruct (init_fresh_cases Pid_init indeterminate_i nodeHandle r)
    as [(names & ptrs & loaded & Hparam & Hres & Hcal & Hload & _ & Hrun')
       |[(e & js & ps & tv & Hrun')
        |(names & ptrs & k & ps & _ & _ & _ & _ & _ & _ & _ & Hrun')]];
    rewrite Hrun' in Hrun; [|discriminate..].
  injection Hrun as <-. exists names. simpl.
  pose proof (Forall2_length _ _ _ Hres) as Hl1.
  pose proof (Forall2_length _ _ _ Hload) as Hl2.
  split; [exact Hparam|]. split.
  { apply Forall2_flip. eapply Forall2_impl; [exact Hres|].
    intros nm p Hp. split; [exact Hp|]. apply getJointState_Some. exact Hp. }
  split; [exact Hcal|]. split; [exact Hload|].
  split; [rewrite Hl1; reflexivity|]. split; [reflexivity|].
  split; [|simpl; rewrite length_replicate; lia].
  exact (resolved_valid r names ptrs Hres).
Qed.

(** X6.  Without a [joints] parameter, or with one that is not an array,
    [init] returns false in whatever state it is called, logs the one
    matching error and changes nothing else. *)
Theorem init_configuration_error (nodeHandle : NodeHandle) (s : State) :
  (getParam nodeHandle "joints" = None ∨
   ∃ x, getParam nodeHandle "joints" = Some x ∧ ∀ l, x ≠ TypeArray l) →
  init Pid_init indeterminate_i nodeHandle s =
  Done false
    (set_rosout
       (rosout s ++
        [match getParam nodeHandle "joints" with
         | None => NoJointsGiven (getNamespace nodeHandle)
         | Some _ => MalformedJointSpecification (getNamespace nodeHandle)
         end]) s).
Proof.
  intros [Hnone|(x & Hx & Hnot)]; unfold init.
  - rewrite Hnone. reflexivity.
  - rewrite Hx. destruct x; try reflexivity. destruct (Hnot l eq_refl).
Qed.
End InitProperties.

Section InitErrors.
Variable Pid_init : string → Pid → option Pid.
Variable indeterminate_i : nat → nat.
Variable nodeHandle : NodeHandle.
Variable r : RobotState.

Lemma resolve_loop_not_string good ptrs x post :
  Forall2 (λ nm p, getJointState r nm = Some p) good ptrs →
  not_string x →
  ∀ pre s, robot s = r →
  for_until (seq (length pre) (length ((TypeString <$> good) ++ x :: post)))
    (resolve (getNamespace nodeHandle)
       (pre ++ (TypeString <$> good) ++ x :: post)) s
  = Done (Some false)
      (set_rosout (rosout s ++ [JointNamesNotStrings (getNamespace nodeHandle)])
         (set_joints (joints s ++ ptrs) s)).
Proof.
  intros Hgood Hx.
  induction Hgood as [|nm p good ptrs Hp Hrest IH]; intros pre s Hr; simpl.
  - erewrite run_bind_Done
      by (eapply resolve_step_not_string;
          [apply list_lookup_middle; reflexivity | exact Hx]).
    rewrite app_nil_r, set_joints_same. reflexivity.
  - erewrite run_bind_Done
      by (apply (resolve_step_ok _ r _ _ nm p);
          [apply list_lookup_middle; reflexivity | exact Hr | exact Hp]).
    specialize (IH (pre ++ [TypeString nm]) (set_joints (joints s ++ [p]) s) Hr).
    rewrite length_app, Nat.add_1_r, <- (assoc_L (++)) in IH. simpl in IH.
    rewrite <- (assoc_L (++)) in IH. exact IH.
Qed.

(** X5.  When the configured joints are an array whose first element that
    is not a string comes after names that all resolve, [init] on a fresh
    controller returns false with the one report that the array should
    contain strings only; the names before that element stay bound, and
    no target, PID or subscription is set up. *)
Theorem init_not_all_strings (good : list string) (ptrs : list JointStatePtr)
    (x : XmlRpcValue) (post : list XmlRpcValue) :
  getParam nodeHandle "joints"
    = Some (TypeArray ((TypeString <$> good) ++ x :: post)) →
  Forall2 (λ nm p, getJointState r nm = Some p) good ptrs →
  not_string x →
  init Pid_init indeterminate_i nodeHandle (constructed r) =
  Done false (mkState r ptrs [] [] 0%Z None
                      [JointNamesNotStrings (getNamespace nodeHandle)]).
Proof.
  intros Hparam Hgood Hx. unfold init. rewrite Hparam.
  erewrite run_or_else_Some
    by (exact (resolve_loop_not_string good ptrs x post Hgood Hx
                 [] (constructed r) eq_refl)).
  reflexivity.
Qed.

(** X3.  When the configured names resolve to [ptrs] but not every one of
    these joints is calibrated, [init] on a fresh controller returns
    false and reports the first uncalibrated joint; every name stays
    bound, and no target, PID or subscription is set up. *)
Theorem init_uncalibrated (names : list string) (ptrs : list JointStatePtr) :
  getParam nodeHandle "joints" = Some (TypeArray (TypeString <$> names)) →
  Forall2 (λ nm p, getJointState r nm = Some p) names ptrs →
  ¬ Forall (calibrated_at r) ptrs →
  ∃ good p post j,
    ptrs = good ++ p :: post ∧ Forall (calibrated_at r) good ∧
    joint_states_ r !! p = Some j ∧ calibrated_ j = false ∧
    init Pid_init indeterminate_i nodeHandle (constructed r) =
    Done false (mkState r ptrs [] [] 0%Z None
                  [JointNotCalibrated (name (joint_ j)) (getNamespace nodeHandle)]).
Proof.
  intros Hparam Hres Hnot.
  rewrite (init_resolved Pid_init indeterminate_i nodeHandle r names ptrs Hparam Hres).
  destruct (calibrated_loop_cases (getNamespace nodeHandle) ptrs []
              (set_joints ptrs (constructed r)) eq_refl
              (resolved_valid r names ptrs Hres))
    as [[Hcal _]|(good & p & post & j & Hsplit & Hgood & Hj & Hc & Hrun)].
  - destruct (Hnot Hcal).
  - exists good, p, post, j. repeat (split; [assumption|]).
    erewrite run_or_else_Some by exact Hrun. reflexivity.
Qed.

End InitErrors.

(** ** Ticks, one after the other *)

Lemma same_length_by_lookup {A B} (l1 : list A) (l2 : list B) :
  (∀ p, is_Some (l1 !! p) ↔ is_Some (l2 !! p)) → length l1 = length l2.
Proof.
  intros H.
  destruct (Nat.lt_trichotomy (length l1) (length l2)) as [Hlt|[Heq|Hgt]].
  - apply lookup_lt_is_Some, H, lookup_lt_is_Some in Hlt. lia.
  - exact Heq.
  - apply lookup_lt_is_Some, H, lookup_lt_is_Some in Hgt. lia.
Qed.

Section TickProperties.
Variable updatePid : Pid → float → ros_Duration → float * Pid.

Lemma update_done s :
  tick_ready s →
  ∃ s', update updatePid s = Done () s' ∧
        tick_inv updatePid (set_lastTime (getTime (robot s)) s)
          (ros_Time_sub (getTime (robot s)) (lastTime s))
          (length (joints s)) s'.
Proof.
  intros (Hval & Htv & Hpids). rewrite update_unfold.
  exact (tick_loop updatePid (set_lastTime (getTime (robot s)) s) _
           (length (joints s)) 0 _ Hval (tick_inv_start updatePid _ _)
           ltac:(reflexivity) Htv Hpids).
Qed.

Lemma efforts_for_unbound s dt p idx :
  p ∉ joints s → efforts_for updatePid s dt p idx = [].
Proof.
  intros Hp. induction idx as [|i idx IH]; [reflexivity|].
  unfold efforts_for in *. simpl. rewrite decide_False; [exact IH|].
  intros Hi. apply Hp. eapply list_elem_of_lookup_2. exact Hi.
Qed.

Lemma tick_inv_joint_states_length s0 dt i s :
  tick_inv updatePid s0 dt i s →
  length (joint_states_ (robot s)) = length (joint_states_ (robot s0)).
Proof.
  intros Hinv. apply same_length_by_lookup. intros p.
  rewrite (inv_joint_states _ _ _ _ _ Hinv). apply fmap_is_Some.
Qed.

Lemma tick_inv_ready s0 dt i s :
  tick_ready s0 → tick_inv updatePid s0 dt i s → tick_ready s.
Proof.
  intros (Hval & Htv & Hpids) Hinv.
  pose proof (tick_inv_joint_states_length _ _ _ _ Hinv) as Hlen.
  destruct Hinv as [Ijs Itv Ilt Isub Ilog Itime Ilen Itodo Idone Irob].
  unfold tick_ready, bindings_valid. rewrite Ijs, Itv, Ilen, Hlen. done.
Qed.

(** X7.  A tick in a state that is ready for it ends in a state that is
    ready for the next one.  It keeps the number of PIDs and of joint
    states and the robot's clock, and of a joint state it changes the
    commanded effort only: name, velocity and calibration flag stay, and
    the state of a joint that is not bound stays as a whole. *)
Theorem update_keeps_ready (s : State) :
  tick_ready s →
  ∃ s', update updatePid s = Done () s' ∧ tick_ready s' ∧
        length (pids s') = length (pids s) ∧
        current_time_ (robot s') = current_time_ (robot s) ∧
        length (joint_states_ (robot s')) = length (joint_states_ (robot s)) ∧
        ∀ p j, joint_states_ (robot s) !! p = Some j →
               ∃ j', joint_states_ (robot s') !! p = Some j' ∧
                     joint_ j' = joint_ j ∧ velocity_ j' = velocity_ j ∧
                     calibrated_ j' = calibrated_ j ∧
                     (p ∉ joints s → j' = j).
Proof.
  intros Hready. destruct (update_done s Hready) as (s' & Hrun & Hinv).
  exists s'. split; [exact Hrun|].
  split; [exact (tick_inv_ready (set_lastTime _ s) _ _ _ Hready Hinv)|].
  split; [exact (inv_pids_length _ _ _ _ _ Hinv)|].
  split; [exact (inv_time _ _ _ _ _ Hinv)|].
  split; [exact (tick_inv_joint_states_length _ _ _ _ Hinv)|].
  intros p j Hj. rewrite (inv_joint_states _ _ _ _ _ Hinv).
  simpl robot. rewrite Hj. eexists. split; [reflexivity|].
  repeat split. intros Hp.
  rewrite (efforts_for_unbound (set_lastTime _ s) _ _ _ Hp). apply with_efforts_nil.
Qed.

(** X8.  Two ticks with a change of the robot state between them (same
    number of joint states): both end normally; the first leaves the
    robot's time at its call as the baseline, and the second advances
    every PID, as the first tick left it, on the new velocity minus the
    unchanged target and on the time elapsed between the two calls,
    and moves the baseline to the time of the second call. *)
Theorem update_twice (s : State) (r2 : RobotState) :
  tick_ready s →
  length (joint_states_ r2) = length (joint_states_ (robot s)) →
  ∃ s1 s2,
    update updatePid s = Done () s1 ∧
    update updatePid (set_robot r2 s1) = Done () s2 ∧
    lastTime s1 = getTime (robot s) ∧ lastTime s2 = getTime r2 ∧
    ∀ i p j target pid1,
      joints s !! i = Some p → joint_states_ r2 !! p = Some j →
      targetVelocities s !! i = Some target → pids s1 !! i = Some pid1 →
      pids s2 !! i =
      Some (updatePid pid1 (PrimFloat.sub (velocity_ j) target)
              (ros_Time_sub (getTime r2) (getTime (robot s)))).2.
Proof.
  intros Hready Hlen.
  destruct (update_done s Hready) as (s1 & Hrun1 & Hinv1).
  pose proof (tick_inv_ready (set_lastTime _ s) _ _ _ Hready Hinv1) as Hready1.
  assert (tick_ready (set_robot r2 s1)) as Hready1'.
  { destruct Hready1 as (Hval & Htv & Hpids).
    split; [|split; assumption]. unfold bindings_valid in *. simpl.
    pose proof (tick_inv_joint_states_length _ _ _ _ Hinv1) as Hl1.
    simpl in Hl1. rewrite Hlen, <- Hl1. exact Hval. }
  destruct (update_done _ Hready1') as (s2 & Hrun2 & Hinv2).
  exists s1, s2. split; [exact Hrun1|]. split; [exact Hrun2|].
  pose proof (inv_lastTime _ _ _ _ _ Hinv1) as Hlast1. simpl in Hlast1.
  split; [exact Hlast1|].
  split; [exact (inv_lastTime _ _ _ _ _ Hinv2)|].
  intros i p j t pid1 Hp Hj Ht Hq.
  rewrite (inv_pids_done _ _ _ _ _ Hinv2)
    by (simpl; rewrite (inv_joints _ _ _ _ _ Hinv1); apply lookup_lt_is_Some;
        eauto).
  unfold pid_answer. simpl.
  rewrite (inv_joints _ _ _ _ _ Hinv1), (inv_targets _ _ _ _ _ Hinv1). simpl.
  rewrite Hp. simpl. rewrite Hj. simpl. rewrite Ht. simpl. rewrite Hq. simpl.
  rewrite Hlast1. reflexivity.
Qed.
End TickProperties.

(** ** Commands with an entry for every joint *)

Lemma lookup_resize {A} n (d : A) v j :
  j < n → resize n d v !! j = Some (default d (v !! j)).
Proof.
  intros Hj. unfold resize.
  destruct (decide (j < length v)) as [Hlt|Hge].
  - rewrite lookup_app_l by (rewrite length_take; lia).
    rewrite lookup_take, decide_True by lia.
    destruct (lookup_lt_is_Some_2 v j Hlt) as [x Hx]. rewrite Hx. reflexivity.
  - rewrite lookup_app_r by (rewrite length_take; lia).
    rewrite length_take, (proj2 (lookup_ge_None v j)) by lia. simpl.
    apply lookup_replicate_2. lia.
Qed.

(** What a command with an entry for every joint position does. *)
Lemma entry_per_joint_slots (velocities : list JointValue) (s : State) :
  bindings_valid s → velocities ≠ [] →
  length (joints s) ≤ length velocities →
  ∃ s', velocityCommand velocities s = Done () s' ∧
    joints s' = joints s ∧ robot s' = robot s ∧
    length (targetVelocities s') = length velocities ∧
    (∀ j p jt k v,
       joints s !! j = Some p → joint_states_ (robot s) !! p = Some jt →
       first_match (name (joint_ jt)) velocities k v →
       targetVelocities s' !! j = Some (value v)) ∧
    (∀ j p jt,
       joints s !! j = Some p → joint_states_ (robot s) !! p = Some jt →
       ¬ commanded (name (joint_ jt)) velocities →
       targetVelocities s' !! j = Some (default 0%float (targetVelocities s !! j))) ∧
    (∀ j, length (joints s) ≤ j < length velocities →
       targetVelocities s' !! j = Some (default 0%float (targetVelocities s !! j))).
Proof.
  intros Hval Hne Hlen.
  pose proof (correlated_targets_nonempty s velocities Hne) as Htv.
  destruct (command_loop_total velocities _ (located_at_ok s velocities)
              (length (joints s)) 0 (correlated s velocities))
    as [s' Hrun];
    [rewrite length_fmap; reflexivity
    | simpl; rewrite length_resize; exact Hlen | exact Htv |].
  destruct (command_loop_done velocities _ (located_at_ok s velocities)
              (length (joints s)) 0 _ s'
              ltac:(rewrite length_fmap; reflexivity) Htv Hrun)
    as (Hlen' & Hkeep & lg & _ & Hset).
  rewrite <- velocityCommand_unfold in Hrun by assumption.
  assert (∀ X (f : State → X),
    (∀ l s, f (set_targetVelocities l s) = f s) →
    (∀ l s, f (set_rosout l s) = f s) → f s' = f s) as Hframe.
  { intros X f H1 H2.
    pose proof (velocityCommand_frame f velocities Hne H1 H2 s) as H.
    rewrite Hrun in H. exact H. }
  exists s'. split; [exact Hrun|].
  split; [apply (Hframe _ joints); reflexivity|].
  split; [apply (Hframe _ robot); reflexivity|].
  split; [rewrite Hlen'; simpl; apply length_resize|]. split; [|split].
  - intros j p jt k v Hp Hjt Hfirst.
    pose proof (locate_first _ 0 _ _ _ Hfirst) as Hloc. simpl in Hloc.
    apply (Hset j (Z.of_nat k) v).
    + split; [lia|]. apply lookup_lt_is_Some. eauto.
    + rewrite (located_lookup _ _ _ _ _ Hp Hjt), Hloc. reflexivity.
    + lia.
    + rewrite Nat2Z.id. apply Hfirst.
  - intros j p jt Hp Hjt Hnot. rewrite Hkeep.
    + simpl. apply lookup_resize.
      assert (j < length (joints s)) by (apply lookup_lt_is_Some; eauto). lia.
    + right. right. rewrite (located_lookup _ _ _ _ _ Hp Hjt). f_equal.
      apply locate_none. intros v Hv Hnm. apply Hnot. exists v. done.
  - intros j Hj. rewrite Hkeep by (right; left; lia).
    simpl. apply lookup_resize. lia.
Qed.

(** X9.  A non-empty command with at least as many entries as there are
    bound joints completes.  The target-velocity set then has one slot
    per entry; the slot of a joint that an entry names holds the value of
    the first such entry; the slot of a joint that no entry names holds
    what it held before, or zero when it did not exist.  In particular,
    with as many entries as joints and a target per joint before, the set
    keeps its length and the joints that are not named keep their
    targets. *)
Theorem velocityCommand_entry_per_joint
    (velocities : list JointValue) (s : State) :
  bindings_valid s → velocities ≠ [] →
  length (joints s) ≤ length velocities →
  ∃ s', velocityCommand velocities s = Done () s' ∧
    length (targetVelocities s') = length velocities ∧
    (∀ j p jt k v,
       joints s !! j = Some p → joint_states_ (robot s) !! p = Some jt →
       first_match (name (joint_ jt)) velocities k v →
       targetVelocities s' !! j = Some (value v)) ∧
    (∀ j p jt,
       joints s !! j = Some p → joint_states_ (robot s) !! p = Some jt →
       ¬ commanded (name (joint_ jt)) velocities →
       targetVelocities s' !! j = Some (default 0%float (targetVelocities s !! j))) ∧
    (length velocities = length (joints s) →
     length (targetVelocities s) = length (joints s) →
     length (targetVelocities s') = length (joints s) ∧
     ∀ j p jt,
       joints s !! j = Some p → joint_states_ (robot s) !! p = Some jt →
       ¬ commanded (name (joint_ jt)) velocities →
       targetVelocities s' !! j = targetVelocities s !! j).
Proof.
  intros Hval Hne Hlen.
  destruct (entry_per_joint_slots velocities s Hval Hne Hlen)
    as (s' & Hrun & _ & _ & Hlen' & Hnamed & Hunnamed & _).
  exists s'. split; [exact Hrun|]. split; [exact Hlen'|].
  split; [exact Hnamed|]. split; [exact Hunnamed|].
  intros Heq Htv. split; [congruence|].
  intros j p jt Hp Hjt Hnot. rewrite (Hunnamed j p jt Hp Hjt Hnot).
  destruct (lookup_lt_is_Some_2 (targetVelocities s) j) as [x Hx].
  { rewrite Htv. apply lookup_lt_is_Some. eauto. }
  rewrite Hx. reflexivity.
Qed.

(** X10.  The inner loop of [velocityCommand] finds the first entry that
    names the joint: its result is [-1] exactly when no entry carries the
    name, and otherwise the position of an entry that carries it and
    that no earlier entry does. *)
Theorem locate_first_match_wins (nm : string) (velocities : list JointValue) :
  (locate nm 0 velocities = (-1)%Z ∧ ¬ commanded nm velocities) ∨
  (∃ k v, locate nm 0 velocities = Z.of_nat k ∧ first_match nm velocities k v ∧
          commanded nm velocities).
Proof.
  destruct (decide (locate nm 0 velocities = (-1)%Z)) as [Hnone|Hsome].
  - left. split; [exact Hnone|]. intros (v & Hv & Hnm).
    exact (proj1 (locate_none _ _ _) Hnone v Hv Hnm).
  - right. destruct (locate_found _ _ _ Hsome) as (k & v & Hfirst & Hloc).
    exists k, v. split; [exact Hloc|]. split; [exact Hfirst|].
    exists v. destruct Hfirst as (Hk & Hnm & _).
    split; [eapply list_elem_of_lookup_2; exact Hk | exact Hnm].
Qed.

(** ** What a command reports *)

Lemma flag_unit_log v s :
  rosout (flag_unit v s) =
  rosout s ++ (if String.eqb (unit v) radian_per_second then []
               else [IncompatibleUnits (joint_uri v) (unit v)]).
Proof.
  unfold flag_unit. destruct (String.eqb _ _); simpl.
  - rewrite app_nil_r. reflexivity.
  - reflexivity.
Qed.

Section CommandLog.
Variable velocities : list JointValue.
Variable lookup : list Z.
Hypothesis lookup_entries : lookup_ok velocities lookup.

(** The second loop adds nothing to the log but incompatible-units
    reports for entries of the command, however it ends. *)
Lemma command_loop_log k : ∀ i s,
  targetVelocities s ≠ [] →
  ∃ lg, rosout (final (for_each (seq i k) (command velocities lookup) s))
        = rosout s ++ lg ∧
        Forall (λ e, ∃ v, v ∈ velocities ∧ unit v ≠ radian_per_second ∧
                          e = IncompatibleUnits (joint_uri v) (unit v)) lg.
Proof.
  induction k as [|k IH]; intros i s Htv; simpl for_each.
  - exists []. rewrite app_nil_r. split; [reflexivity | constructor].
  - rewrite run_bind. destruct (lookup !! i) as [l|] eqn:Hl.
    2:{ unfold command at 1.
        erewrite run_bind_Undefined by (apply run_vec_at_None; exact Hl).
        exists []. rewrite app_nil_r. split; [reflexivity | constructor]. }
    destruct (decide (l = (-1)%Z)) as [->|Hne].
    { rewrite (command_skip _ _ _ _ Hl). apply IH. exact Htv. }
    destruct (lookup_entries i l Hl) as [?|[v Hv]]; [done|].
    rewrite (command_write _ _ _ _ _ _ Hl Hne Hv Htv).
    assert (Forall (λ e, ∃ v, v ∈ velocities ∧ unit v ≠ radian_per_second ∧
                              e = IncompatibleUnits (joint_uri v) (unit v))
              (if String.eqb (unit v) radian_per_second then []
               else [IncompatibleUnits (joint_uri v) (unit v)])) as Hflag.
    { destruct (String.eqb_spec (unit v) radian_per_second); constructor;
        [|constructor].
      exists v. split; [eapply list_elem_of_lookup_2; exact Hv | done]. }
    destruct (decide (i < length (targetVelocities s))) as [Hi|Hi].
    + set (s1 := set_targetVelocities _ _).
      destruct (IH (S i) s1) as (lg & Hlg & Hall).
      { intros H. apply (f_equal length) in H. unfold s1 in H.
        simpl targetVelocities in H. rewrite length_insert in H.
        destruct (targetVelocities s); done. }
      eexists. split.
      * rewrite Hlg. unfold s1. simpl. rewrite flag_unit_log, <- (assoc_L (++)).
        reflexivity.
      * apply Forall_app. split; assumption.
    + eexists. split; [simpl; apply flag_unit_log | exact Hflag].
Qed.
End CommandLog.

(** X11.  The reports of a non-empty command, however it ends: the log
    only grows; it gains a not-found report for every bound joint that no
    entry names; and every report it gains is either such a not-found
    report or an incompatible-units report for an entry whose unit is not
    the radians-per-second string.  So a command that names every bound
    joint and uses that unit throughout logs nothing. *)
Theorem velocityCommand_reports (velocities : list JointValue) (s : State) :
  bindings_valid s → velocities ≠ [] →
  ∃ lg, rosout (final (velocityCommand velocities s)) = rosout s ++ lg ∧
    (∀ j p jt,
       joints s !! j = Some p → joint_states_ (robot s) !! p = Some jt →
       ¬ commanded (name (joint_ jt)) velocities →
       UnableToLocateJoint (name (joint_ jt)) ∈ lg) ∧
    (∀ e, e ∈ lg →
       (∃ j p jt,
          joints s !! j = Some p ∧ joint_states_ (robot s) !! p = Some jt ∧
          ¬ commanded (name (joint_ jt)) velocities ∧
          e = UnableToLocateJoint (name (joint_ jt))) ∨
       (∃ v, v ∈ velocities ∧ unit v ≠ radian_per_second ∧
             e = IncompatibleUnits (joint_uri v) (unit v))) ∧
    ((∀ j p jt,
        joints s !! j = Some p → joint_states_ (robot s) !! p = Some jt →
        commanded (name (joint_ jt)) velocities) →
     (∀ v, v ∈ velocities → unit v = radian_per_second) →
     lg = []).
Proof.
  intros Hval Hne. rewrite velocityCommand_unfold by assumption.
  destruct (command_loop_log velocities _ (located_at_ok s velocities)
              (length (joints s)) 0 (correlated s velocities)
              (correlated_targets_nonempty s velocities Hne))
    as (lg & Hlg & Hall).
  exists (omap (unlocated_at s velocities) (joints s) ++ lg).
  assert (∀ e, e ∈ omap (unlocated_at s velocities) (joints s) ++ lg →
    (∃ j p jt,
       joints s !! j = Some p ∧ joint_states_ (robot s) !! p = Some jt ∧
       ¬ commanded (name (joint_ jt)) velocities ∧
       e = UnableToLocateJoint (name (joint_ jt))) ∨
    (∃ v, v ∈ velocities ∧ unit v ≠ radian_per_second ∧
          e = IncompatibleUnits (joint_uri v) (unit v))) as Hkinds.
  { intros e He. apply elem_of_app in He as [He|He].
    - left. apply list_elem_of_omap in He as (p & Hp & He).
      apply list_elem_of_lookup in Hp as [j Hj].
      unfold unlocated_at in He.
      destruct (joint_states_ (robot s) !! p) as [jt|] eqn:Hjt; [|done].
      simpl in He. case_bool_decide as Hloc; [|done].
      injection He as <-. exists j, p, jt. repeat (split; [done|]).
      split; [|reflexivity]. intros (v & Hv & Hnm).
      exact (proj1 (locate_none _ _ _) Hloc v Hv Hnm).
    - right. exact (proj1 (Forall_forall _ _) Hall e He). }
  split; [rewrite Hlg; simpl; rewrite <- (assoc_L (++)); reflexivity|].
  split; [|split; [exact Hkinds|]].
  - intros j p jt Hp Hjt Hnot. apply elem_of_app. left.
    apply list_elem_of_omap. exists p.
    split; [eapply list_elem_of_lookup_2; exact Hp|].
    unfold unlocated_at. rewrite Hjt. simpl.
    rewrite bool_decide_eq_true_2; [reflexivity|].
    apply locate_none. intros v Hv Hnm. apply Hnot. exists v. done.
  - intros Hnamed Hunits.
    destruct (omap (unlocated_at s velocities) (joints s) ++ lg) as [|e rest];
      [reflexivity|].
    destruct (Hkinds e ltac:(left)) as [(j & p & jt & Hp & Hjt & Hnot & _)
                                        |(v & Hv & Hu & _)].
    + destruct (Hnot (Hnamed j p jt Hp Hjt)).
    + destruct (Hu (Hunits v Hv)).
Qed.

(** ** What the methods leave alone *)

(** Like [frame], and by cases on whatever a computation branches on. *)
Ltac frame_cases :=
  repeat first
    [ solve [auto with frame]
    | lazymatch goal with
      | |- preserves _ (match ?x with _ => _ end) => destruct x
      end
    | lazymatch goal with |- preserves _ _ => fail | |- _ => intro end
    | apply preserves_ret
    | apply preserves_bind
    | apply preserves_for_until
    | apply preserves_ROS_ERROR
    | apply preserves_pids_store
    | lazymatch goal with
      | |- preserves _ (modify _) => apply preserves_modify
      end
    | reflexivity ].

Lemma init_frame {X} (f : State → X) Pid_init indeterminate_i nodeHandle :
  (∀ l s, f (set_joints l s) = f s) → (∀ l s, f (set_pids l s) = f s) →
  (∀ l s, f (set_targetVelocities l s) = f s) →
  (∀ l s, f (set_rosout l s) = f s) → (∀ t s, f (set_subscriber t s) = f s) →
  preserves f (init Pid_init indeterminate_i nodeHandle).
Proof.
  intros Hj Hp Ht Hl Hs.
  unfold init, or_else, resolve, check_calibrated, setup_pid, joints_push_back.
  frame_cases.
Qed.

(** X12.  Only a tick writes to the robot: however they end, [init],
    [starting] and [velocityCommand] leave the robot state, and with it
    every commanded effort, as it was; [init] also leaves the clock
    baseline, and [starting] and [velocityCommand] the bindings and the
    subscription. *)
Theorem robot_written_by_ticks_only
    (Pid_init : string → Pid → option Pid) (indeterminate_i : nat → nat)
    (nodeHandle : NodeHandle) (velocities : list JointValue) (s : State) :
  (robot (final (init Pid_init indeterminate_i nodeHandle s)) = robot s ∧
   lastTime (final (init Pid_init indeterminate_i nodeHandle s)) = lastTime s) ∧
  (robot (final (starting s)) = robot s ∧
   joints (final (starting s)) = joints s ∧
   subscriber (final (starting s)) = subscriber s) ∧
  (robot (final (velocityCommand velocities s)) = robot s ∧
   joints (final (velocityCommand velocities s)) = joints s ∧
   subscriber (final (velocityCommand velocities s)) = subscriber s).
Proof.
  assert (∀ X (f : State → X),
    (∀ l s, f (set_pids l s) = f s) → (∀ t s, f (set_lastTime t s) = f s) →
    (∀ l s, f (set_targetVelocities l s) = f s) →
    (∀ l s, f (set_rosout l s) = f s) →
    f (final (velocityCommand velocities s)) = f s) as Hcommand.
  { intros X f Hp Ht Htv Hl. destruct velocities as [|v vs].
    - apply (starting_frame f Hp Ht).
    - apply (velocityCommand_frame f (v :: vs)); [done | assumption..]. }
  split; [|split].
  - split; apply (init_frame _ Pid_init indeterminate_i nodeHandle); reflexivity.
  - repeat split; apply starting_frame; reflexivity.
  - repeat split; apply Hcommand; reflexivity.
Qed.

(** X13.  However they end, a start and a tick log nothing and leave the
    bindings, the targets and the subscription as they were. *)
Theorem start_and_tick_are_silent
    (updatePid : Pid → float → ros_Duration → float * Pid) (s : State) :
  let kept s := (joints s, targetVelocities s, subscriber s, rosout s) in
  kept (final (starting s)) = kept s ∧
  kept (final (update updatePid s)) = kept s.
Proof.
  intros kept. split.
  - apply (starting_frame kept); reflexivity.
  - apply (update_frame updatePid kept); reflexivity.
Qed.

(** X14.  Starting twice is starting once: a second start right after a
    start changes nothing. *)
Theorem starting_twice (s : State) :
  ∃ s1, starting s = Done () s1 ∧ starting s1 = Done () s1.
Proof.
  eexists. split; [apply starting_spec|]. rewrite starting_spec. simpl.
  unfold set_lastTime, set_pids. simpl. do 2 f_equal.
  rewrite <- list_fmap_compose. apply list_fmap_ext. intros i p _. reflexivity.
Qed.

(** ** Histories without undefined accesses *)

Section Safety.
Variable updatePid : Pid → float → ros_Duration → float * Pid.

Lemma starting_ready s :
  tick_ready s →
  ∃ s', starting s = Done () s' ∧ tick_ready s' ∧
        length (joint_states_ (robot s')) = length (joint_states_ (robot s)).
Proof.
  intros (Hval & Htv & Hpids). eexists. split; [apply starting_spec|].
  split; [|reflexivity].
  split; [exact Hval|]. split; [exact Htv|]. simpl.
  rewrite length_fmap. exact Hpids.
Qed.

Lemma command_ready velocities s :
  tick_ready s → velocities ≠ [] → length (joints s) ≤ length velocities →
  ∃ s', velocityCommand velocities s = Done () s' ∧ tick_ready s' ∧
        length (joint_states_ (robot s')) = length (joint_states_ (robot s)).
Proof.
  intros (Hval & Htv & Hpids) Hne Hlen.
  destruct (command_loop_total velocities _ (located_at_ok s velocities)
              (length (joints s)) 0 (correlated s velocities))
    as [s' Hrun];
    [rewrite length_fmap; reflexivity
    | simpl; rewrite length_resize; exact Hlen
    | apply correlated_targets_nonempty; exact Hne |].
  rewrite <- velocityCommand_unfold in Hrun by assumption.
  destruct (velocityCommand_done_targets velocities s s' Hne Hval Hrun)
    as [Hlen' _].
  assert (∀ X (f : State → X),
    (∀ l s, f (set_targetVelocities l s) = f s) →
    (∀ l s, f (set_rosout l s) = f s) → f s' = f s) as Hframe.
  { intros X f H1 H2.
    pose proof (velocityCommand_frame f velocities Hne H1 H2 s) as H.
    rewrite Hrun in H. exact H. }
  pose proof (Hframe _ joints ltac:(reflexivity) ltac:(reflexivity)) as Hjs.
  pose proof (Hframe _ robot ltac:(reflexivity) ltac:(reflexivity)) as Hrs.
  pose proof (Hframe _ pids ltac:(reflexivity) ltac:(reflexivity)) as Hps.
  exists s'. split; [exact Hrun|]. split; [|rewrite Hrs; reflexivity].
  unfold tick_ready, bindings_valid. rewrite Hjs, Hrs, Hps, Hlen'. done.
Qed.

Lemma handle_ready e s :
  tick_ready s →
  fits (length (joints s)) (length (joint_states_ (robot s))) e →
  ∃ s', handle updatePid e s = Done () s' ∧ tick_ready s' ∧
        length (joint_states_ (robot s')) = length (joint_states_ (robot s)).
Proof.
  intros Hready Hfits. destruct e as [| |velocities|r]; simpl in *.
  - apply starting_ready. exact Hready.
  - destruct (update_done updatePid s Hready) as (s' & Hrun & Hinv).
    exists s'. split; [exact Hrun|].
    split; [exact (tick_inv_ready updatePid (set_lastTime _ s) _ _ _ Hready Hinv)|].
    exact (tick_inv_joint_states_length updatePid _ _ _ _ Hinv).
  - destruct velocities as [|v vs].
    + apply starting_ready. exact Hready.
    + apply command_ready; [exact Hready | done |].
      destruct Hfits as [?|?]; [done | assumption].
  - eexists. split; [reflexivity|]. split; [|exact Hfits].
    destruct Hready as (Hval & Htv & Hpids). split; [|split; assumption].
    unfold bindings_valid in *. simpl. rewrite Hfits. exact Hval.
Qed.

(** X15.  From a state that is ready for ticks, a history of starts,
    ticks, commands and changes of the robot state runs to its end
    without an undefined access, and ends ready for ticks with the same
    bindings, provided every command in it is empty or has at least as
    many entries as there are bound joints, and the robot keeps its
    number of joint states. *)
Theorem fitting_history_is_safe (history : list Event) (s : State) :
  tick_ready s →
  Forall (fits (length (joints s)) (length (joint_states_ (robot s)))) history →
  ∃ s', run updatePid history s = Done () s' ∧ tick_ready s' ∧
        joints s' = joints s.
Proof.
  revert s. induction history as [|e rest IH]; intros s Hready Hfits.
  - exists s. split; [reflexivity|]. split; [exact Hready | reflexivity].
  - inversion Hfits as [|? ? He Hrest]; subst.
    destruct (handle_ready e s Hready He) as (s1 & Hrun & Hready1 & Hlen).
    pose proof (handle_keeps_joints updatePid e s) as Hjs.
    rewrite Hrun in Hjs. simpl in Hjs.
    destruct (IH s1 Hready1) as (s' & Hrun' & Hready' & Hjs').
    { rewrite Hjs, Hlen. exact Hrest. }
    exists s'. split; [|split; [exact Hready' | congruence]].
    simpl. erewrite run_bind_Done by exact Hrun. exact Hrun'.
Qed.
End Safety.

(** ** Commands, one after the other *)

(** X16.  A non-empty command with fewer entries than there are bound
    joints that completes leaves fewer targets than joints, so the next
    tick reads [targetVelocities[i]] past the end of the set, at the
    entry count. *)
Theorem short_command_breaks_next_tick
    (updatePid : Pid → float → ros_Duration → float * Pid)
    (velocities : list JointValue) (s s' : State) :
  bindings_valid s → length (joints s) ≤ length (pids s) →
  velocities ≠ [] → length velocities < length (joints s) →
  velocityCommand velocities s = Done () s' →
  ∃ s'', update updatePid s' = Undefined vTargets (length velocities) s''.
Proof.
  intros Hval Hpids Hne Hshort Hrun.
  destruct (velocityCommand_done_targets velocities s s' Hne Hval Hrun)
    as [Hlen _].
  assert (∀ X (f : State → X),
    (∀ l s, f (set_targetVelocities l s) = f s) →
    (∀ l s, f (set_rosout l s) = f s) → f s' = f s) as Hframe.
  { intros X f H1 H2.
    pose proof (velocityCommand_frame f velocities Hne H1 H2 s) as H.
    rewrite Hrun in H. exact H. }
  pose proof (Hframe _ joints ltac:(reflexivity) ltac:(reflexivity)) as Hjs.
  pose proof (Hframe _ robot ltac:(reflexivity) ltac:(reflexivity)) as Hrs.
  pose proof (Hframe _ pids ltac:(reflexivity) ltac:(reflexivity)) as Hps.
  rewrite <- Hlen. apply update_short.
  - unfold bindings_valid. rewrite Hjs, Hrs. exact Hval.
  - rewrite Hjs, Hlen. exact Hshort.
  - rewrite Hjs, Hps. exact Hpids.
Qed.

(** X17.  Two non-empty commands in a row, each with at least as many
    entries as there are bound joints, both complete, and the later one
    wins: a joint that the later command names has the value of the
    first entry for it there; a joint that only the earlier command names keeps
    the value the earlier command gave it.  Sending the same command again
    leaves the targets as they are. *)
Theorem latest_command_wins (earlier later : list JointValue) (s : State) :
  bindings_valid s → earlier ≠ [] → later ≠ [] →
  length (joints s) ≤ length earlier → length (joints s) ≤ length later →
  ∃ s1 s2,
    velocityCommand earlier s = Done () s1 ∧
    velocityCommand later s1 = Done () s2 ∧
    (∀ j p jt,
       joints s !! j = Some p → joint_states_ (robot s) !! p = Some jt →
       (∀ k v, first_match (name (joint_ jt)) later k v →
               targetVelocities s2 !! j = Some (value v)) ∧
       (¬ commanded (name (joint_ jt)) later →
        ∀ k v, first_match (name (joint_ jt)) earlier k v →
               targetVelocities s2 !! j = Some (value v))) ∧
    (later = earlier → targetVelocities s2 = targetVelocities s1).
Proof.
  intros Hval Hne1 Hne2 Hlen1 Hlen2.
  destruct (entry_per_joint_slots earlier s Hval Hne1 Hlen1)
    as (s1 & Hrun1 & Hjs1 & Hrs1 & Hl1 & Hnamed1 & Hunnamed1 & Hbeyond1).
  assert (bindings_valid s1) as Hval1
    by (unfold bindings_valid; rewrite Hjs1, Hrs1; exact Hval).
  destruct (entry_per_joint_slots later s1 Hval1 Hne2
              ltac:(rewrite Hjs1; exact Hlen2))
    as (s2 & Hrun2 & Hjs2 & Hrs2 & Hl2 & Hnamed2 & Hunnamed2 & Hbeyond2).
  rewrite Hjs1, Hrs1 in Hnamed2, Hunnamed2. rewrite Hjs1 in Hbeyond2.
  exists s1, s2. split; [exact Hrun1|]. split; [exact Hrun2|]. split.
  - intros j p jt Hp Hjt. split.
    + intros k v Hfirst. exact (Hnamed2 j p jt k v Hp Hjt Hfirst).
    + intros Hnot k v Hfirst.
      rewrite (Hunnamed2 j p jt Hp Hjt Hnot),
              (Hnamed1 j p jt k v Hp Hjt Hfirst). reflexivity.
  - intros ->. apply list_eq. intros j.
    destruct (decide (j < length earlier)) as [Hj|Hj].
    2:{ rewrite !(proj2 (lookup_ge_None _ _)) by lia. reflexivity. }
    destruct (lookup_lt_is_Some_2 (targetVelocities s1) j ltac:(lia)) as [x Hx].
    destruct (decide (j < length (joints s))) as [Hbound|Hfree].
    + destruct (lookup_lt_is_Some_2 (joints s) j Hbound) as [p Hp].
      destruct (lookup_lt_is_Some_2 (joint_states_ (robot s)) p) as [jt Hjt].
      { exact (Forall_lookup_1 _ _ _ _ Hval Hp). }
      destruct (decide (locate (name (joint_ jt)) 0 earlier = (-1)%Z)) as [Hnone|Hsome].
      * rewrite (Hunnamed2 j p jt Hp Hjt), Hx; [reflexivity|].
        intros (v & Hv & Hnm). exact (proj1 (locate_none _ _ _) Hnone v Hv Hnm).
      * destruct (locate_found _ _ _ Hsome) as (k & v & Hfirst & _).
        rewrite (Hnamed2 j p jt k v Hp Hjt Hfirst),
                (Hnamed1 j p jt k v Hp Hjt Hfirst). reflexivity.
    + rewrite (Hbeyond2 j ltac:(lia)), Hx. reflexivity.
Qed.

(** ** When a tick and a command are defined *)

Section Definedness.
Variable updatePid : Pid → float → ros_Duration → float * Pid.

(** X18.  With valid bindings and a PID per bound joint, a tick ends
    normally exactly when there is a target for every bound joint. *)
Theorem update_defined_iff (s : State) :
  bindings_valid s → length (joints s) ≤ length (pids s) →
  (∃ s', update updatePid s = Done () s') ↔
  length (joints s) ≤ length (targetVelocities s).
Proof.
  intros Hval Hpids. split.
  - intros [s' Hrun].
    destruct (decide (length (joints s) ≤ length (targetVelocities s)))
      as [Hle|Hgt]; [exact Hle|].
    destruct (update_short updatePid s Hval ltac:(lia) Hpids) as [s'' Hstop].
    congruence.
  - intros Htv.
    destruct (update_done updatePid s (conj Hval (conj Htv Hpids)))
      as (s' & Hrun & _).
    exists s'. exact Hrun.
Qed.
End Definedness.

Section CommandDefined.
Variable velocities : list JointValue.
Variable lookup : list Z.
Hypothesis lookup_entries : lookup_ok velocities lookup.

(** The second loop completes when every correlated joint position has a
    slot. *)
Lemma command_loop_within k : ∀ i s,
  i + k ≤ length lookup → targetVelocities s ≠ [] →
  (∀ j l, i ≤ j < i + k → lookup !! j = Some l → l ≠ (-1)%Z →
          j < length (targetVelocities s)) →
  ∃ s', for_each (seq i k) (command velocities lookup) s = Done () s'.
Proof.
  induction k as [|k IH]; intros i s Hik Htv Hin; simpl.
  - eexists. reflexivity.
  - rewrite run_bind.
    destruct (lookup_lt_is_Some_2 lookup i ltac:(lia)) as [l Hl].
    destruct (decide (l = (-1)%Z)) as [->|Hne].
    + rewrite (command_skip _ _ _ _ Hl).
      apply IH; [lia | exact Htv |].
      intros j l' Hj. apply Hin. lia.
    + destruct (lookup_entries i l Hl) as [?|[v0 Hv0]]; [done|].
      rewrite (command_write _ _ _ _ _ _ Hl Hne Hv0 Htv).
      rewrite decide_True by (apply (Hin i l); [lia | assumption..]).
      apply IH; simpl; rewrite ?length_insert; [lia | |].
      * intros H. apply (f_equal length) in H. rewrite length_insert in H.
        destruct (targetVelocities s); done.
      * intros j l' Hj. apply Hin. lia.
Qed.
End CommandDefined.

(** X19.  With valid bindings, a non-empty command completes exactly when
    every bound joint that one of its entries names sits at a position
    below the entry count. *)
Theorem velocityCommand_defined_iff (velocities : list JointValue) (s : State) :
  bindings_valid s → velocities ≠ [] →
  (∃ s', velocityCommand velocities s = Done () s') ↔
  (∀ j p jt,
     joints s !! j = Some p → joint_states_ (robot s) !! p = Some jt →
     commanded (name (joint_ jt)) velocities → j < length velocities).
Proof.
  intros Hval Hne. rewrite velocityCommand_unfold by assumption.
  pose proof (correlated_targets_nonempty s velocities Hne) as Htv.
  split.
  - intros [s' Hrun] j p jt Hp Hjt (v & Hv & Hnm).
    destruct (decide (j < length velocities)) as [Hj|Hj]; [exact Hj|].
    destruct (command_loop_overrun velocities _ (located_at_ok s velocities)
                (length (joints s)) 0 (correlated s velocities) j
                (locate (name (joint_ jt)) 0 velocities))
      as (j' & s'' & Hstop & _);
      [ rewrite length_fmap; reflexivity
      | exact Htv
      | split; [lia | apply lookup_lt_is_Some; eauto]
      | simpl; rewrite length_resize; lia
      | apply (located_lookup _ _ _ _ _ Hp Hjt)
      | intros H; exact (proj1 (locate_none _ _ _) H v Hv Hnm)
      | congruence ].
  - intros Hin.
    apply (command_loop_within velocities _ (located_at_ok s velocities));
      [rewrite length_fmap; reflexivity | exact Htv |].
    intros j l Hj Hl Hnel. simpl. rewrite length_resize.
    destruct (lookup_lt_is_Some_2 (joints s) j ltac:(lia)) as [p Hp].
    destruct (lookup_lt_is_Some_2 (joint_states_ (robot s)) p) as [jt Hjt].
    { exact (Forall_lookup_1 _ _ _ _ Hval Hp). }
    rewrite (located_lookup _ _ _ _ _ Hp Hjt) in Hl. injection Hl as <-.
    apply (Hin j p jt Hp Hjt).
    destruct (locate_found _ _ _ Hnel) as (k & v & (Hk & Hnm & _) & _).
    exists v. split; [eapply list_elem_of_lookup_2; exact Hk | exact Hnm].
Qed.

(** ** The further properties at work on the sample *)

Lemma init_read_back_past_end_witness :
  ∃ s', init gains past_end (node J1_J2) (constructed arm)
        = Undefined vPids 2 s' ∧
        Forall2 (λ p nm, getJointState arm nm = Some p ∧
                         ∃ j, joint_states_ arm !! p = Some j ∧
                              name (joint_ j) = nm)
                (joints s') ["J1"; "J2"] ∧
        targetVelocities s' = replicate 2 0%float ∧
        length (pids s') = 2 ∧
        robot s' = arm ∧ rosout s' = [] ∧ subscriber s' = None.
Proof.
  apply (init_read_back_past_end gains past_end (node J1_J2) arm ["J1"; "J2"] 0).
  - reflexivity.
  - intros nm Hin.
    apply elem_of_cons in Hin as [->|Hin];
      [|apply elem_of_cons in Hin as [->|Hin]; [|inversion Hin]].
    + exists 0, (mkJointState (mkJoint "J1") 0.25 0 true). repeat split.
    + exists 1, (mkJointState (mkJoint "J2") 0.5 10 true). repeat split.
  - intros nm Hin.
    apply elem_of_cons in Hin as [->|Hin];
      [|apply elem_of_cons in Hin as [->|Hin]; [|inversion Hin]];
      eexists; vm_compute; reflexivity.
  - simpl. lia.
  - intros i Hi. lia.
  - unfold past_end. simpl. lia.
Defined.

Lemma init_true_is_ready_witness :
  ∃ names,
    getParam (node J1_J2) "joints" = Some (TypeArray (TypeString <$> names)) ∧
    Forall2 (bound_to arm) (joints (bound [0%float; 0%float])) names ∧
    Forall (calibrated_at arm) (joints (bound [0%float; 0%float])) ∧
    Forall2 (loaded_from gains (gains_namespace (node J1_J2)) arm)
            (joints (bound [0%float; 0%float])) (pids (bound [0%float; 0%float])) ∧
    targetVelocities (bound [0%float; 0%float]) = replicate (length names) 0%float ∧
    robot (bound [0%float; 0%float]) = arm ∧ tick_ready (bound [0%float; 0%float]).
Proof.
  apply (init_true_is_ready gains in_range (node J1_J2) arm (bound [0%float; 0%float])).
  vm_compute. reflexivity.
Defined.

Lemma init_uncalibrated_witness :
  ∃ good p post j,
    [0; 1] = good ++ p :: post ∧ Forall (calibrated_at arm_J2_uncalibrated) good ∧
    joint_states_ arm_J2_uncalibrated !! p = Some j ∧ calibrated_ j = false ∧
    init gains in_range (node J1_J2) (constructed arm_J2_uncalibrated) =
    Done false (mkState arm_J2_uncalibrated [0; 1] [] [] 0%Z None
                  [JointNotCalibrated (name (joint_ j)) "/arm"]).
Proof.
  apply (init_uncalibrated gains in_range (node J1_J2) arm_J2_uncalibrated ["J1"; "J2"] [0; 1]).
  - reflexivity.
  - repeat constructor.
  - intros H. apply Forall_cons in H as [_ H]. apply Forall_cons in H as [H _].
    destruct H as (j & Hj & Hc). vm_compute in Hj. injection Hj as <-.
    discriminate.
Defined.



Lemma init_not_all_strings_witness :
  init gains in_range (node (TypeArray [TypeString "J1"; TypeInt 7; TypeString "J2"]))
       (constructed arm) =
  Done false (mkState arm [0] [] [] 0%Z None [JointNamesNotStrings "/arm"]).
Proof.
  apply (init_not_all_strings gains in_range
           (node (TypeArray [TypeString "J1"; TypeInt 7; TypeString "J2"])) arm
           ["J1"] [0] (TypeInt 7) [TypeString "J2"]).
  - reflexivity.
  - repeat constructor.
  - exact I.
Defined.

Lemma init_configuration_error_witness :
  init gains in_range (mkNodeHandle "/arm" (λ _, None)) (constructed arm) =
  Done false (set_rosout [NoJointsGiven "/arm"] (constructed arm)).
Proof.
  apply (init_configuration_error gains in_range (mkNodeHandle "/arm" (λ _, None))
           (constructed arm)).
  left. reflexivity.
Defined.

Lemma update_keeps_ready_witness :
  ∃ s', update P_law (bound [0%float; 0%float]) = Done () s' ∧ tick_ready s'.
Proof.
  destruct (update_keeps_ready P_law (bound [0%float; 0%float])
              (bound_ready [0%float; 0%float] eq_refl))
    as (s' & Hrun & Hready & _).
  exists s'. split; assumption.
Defined.

Lemma update_twice_witness :
  ∃ s1 s2,
    update P_law (bound [0%float; 0%float]) = Done () s1 ∧
    update P_law (set_robot arm_later s1) = Done () s2 ∧
    lastTime s1 = 1000%Z ∧ lastTime s2 = 1000001000%Z.
Proof.
  destruct (update_twice P_law (bound [0%float; 0%float]) arm_later
              (bound_ready [0%float; 0%float] eq_refl) eq_refl)
    as (s1 & s2 & Hrun1 & Hrun2 & Hl1 & Hl2 & _).
  exists s1, s2. repeat split; assumption.
Defined.

Lemma velocityCommand_entry_per_joint_witness :
  ∃ s', velocityCommand [mkJointValue "J2" radian_per_second 1.5;
                         mkJointValue "J7" radian_per_second 3]
                        (bound [0.5%float; 0.75%float]) = Done () s' ∧
        length (targetVelocities s') = 2.
Proof.
  destruct (velocityCommand_entry_per_joint
              [mkJointValue "J2" radian_per_second 1.5;
               mkJointValue "J7" radian_per_second 3]
              (bound [0.5%float; 0.75%float]))
    as (s' & Hrun & Hlen & _).
  - repeat constructor; simpl; lia.
  - discriminate.
  - simpl. lia.
  - exists s'. split; assumption.
Defined.

Lemma velocityCommand_reports_witness :
  ∃ lg, rosout (final (velocityCommand [mkJointValue "J2" "deg" 1.5]
                                       (bound [0%float; 0%float])))
        = rosout (bound [0%float; 0%float]) ++ lg.
Proof.
  destruct (velocityCommand_reports [mkJointValue "J2" "deg" 1.5]
              (bound [0%float; 0%float]))
    as (lg & Hlg & _).
  - repeat constructor; simpl; lia.
  - discriminate.
  - exists lg. exact Hlg.
Defined.

Lemma fitting_history_is_safe_witness :
  ∃ s', run P_law
          [Start; Tick;
           Command [mkJointValue "J2" radian_per_second 1.5;
                    mkJointValue "J1" radian_per_second 1];
           Hardware arm_later; Tick; Command []; Tick]
          (bound [0%float; 0%float]) = Done () s' ∧
        tick_ready s' ∧ joints s' = [0; 1].
Proof.
  apply (fitting_history_is_safe P_law
           [Start; Tick;
            Command [mkJointValue "J2" radian_per_second 1.5;
                     mkJointValue "J1" radian_per_second 1];
            Hardware arm_later; Tick; Command []; Tick]
           (bound [0%float; 0%float])).
  - exact (bound_ready [0%float; 0%float] eq_refl).
  - repeat (apply Forall_cons; split); try apply Forall_nil; simpl;
      try exact I; try reflexivity; [right; lia | left; reflexivity].
Defined.

Lemma short_command_breaks_next_tick_witness :
  ∃ s'', update P_law
           (set_rosout [UnableToLocateJoint "J2"]
              (set_targetVelocities [1%float] (bound [0%float; 0%float])))
         = Undefined vTargets 1 s''.
Proof.
  apply (short_command_breaks_next_tick P_law
           [mkJointValue "J1" radian_per_second 1] (bound [0%float; 0%float])).
  - repeat constructor; simpl; lia.
  - simpl. lia.
  - discriminate.
  - simpl. lia.
  - vm_compute. reflexivity.
Defined.

Lemma latest_command_wins_witness :
  ∃ s1 s2,
    velocityCommand [mkJointValue "J1" radian_per_second 1;
                     mkJointValue "J2" radian_per_second 2]
                    (bound [0%float; 0%float]) = Done () s1 ∧
    velocityCommand [mkJointValue "J2" radian_per_second 3;
                     mkJointValue "J7" radian_per_second 4] s1 = Done () s2.
Proof.
  destruct (latest_command_wins
              [mkJointValue "J1" radian_per_second 1;
               mkJointValue "J2" radian_per_second 2]
              [mkJointValue "J2" radian_per_second 3;
               mkJointValue "J7" radian_per_second 4]
              (bound [0%float; 0%float]))
    as (s1 & s2 & Hrun1 & Hrun2 & _).
  - repeat constructor; simpl; lia.
  - discriminate.
  - discriminate.
  - simpl. lia.
  - simpl. lia.
  - exists s1, s2. split; assumption.
Defined.

Lemma update_defined_iff_witness :
  (∃ s', update P_law (bound [0%float; 0%float]) = Done () s') ↔
  length (joints (bound [0%float; 0%float]))
  ≤ length (targetVelocities (bound [0%float; 0%float])).
Proof.
  apply (update_defined_iff P_law (bound [0%float; 0%float])).
  - repeat constructor; simpl; lia.
  - simpl. lia.
Defined.

Lemma velocityCommand_defined_iff_witness :
  (∃ s', velocityCommand [mkJointValue "J1" radian_per_second 1]
                         (bound [0%float; 0%float]) = Done () s') ↔
  (∀ j p jt,
     joints (bound [0%float; 0%float]) !! j = Some p →
     joint_states_ (robot (bound [0%float; 0%float])) !! p = Some jt →
     commanded (name (joint_ jt)) [mkJointValue "J1" radian_per_second 1] →
     j < 1).
Proof.
  apply (velocityCommand_defined_iff [mkJointValue "J1" radian_per_second 1]
           (bound [0%float; 0%float])).
  - repeat constructor; simpl; lia.
  - discriminate.
Defined.
